(** * TRON light cycles: the simulation core of [tron_lightcycle.py]

    A shallow embedding of the classes [Direction], [LightCycle] and [Game]
    and the properties of the per-frame simulation: movement, the
    no-reversal rule, collision detection and the winner logic.

    Coordinates are Python integers (the game only ever builds cycles at
    integer positions and steps them by the integer speed), hence [Z].
    Objects mutated in place become records threaded through the methods.
    The pygame handles of [Game] (screen, clock, font) carry no game state
    and are left out. *)

From Stdlib Require Import ZArith List String Bool Lia.
Import ListNotations.
Local Open Scope Z_scope.

(** ** Direction *)

Inductive Direction : Set := UP | DOWN | LEFT | RIGHT.

Module Dir.

(** [Direction.X.value] *)
Definition value (d : Direction) : Z * Z :=
  match d with
  | UP => (0, -1)
  | DOWN => (0, 1)
  | LEFT => (-1, 0)
  | RIGHT => (1, 0)
  end.

(** Two directions are opposite when their vectors are exact negations. *)
Definition opposite (a b : Direction) : Prop :=
  value a = (- fst (value b), - snd (value b)).

End Dir.

(** ** Python values used by the game *)

Definition Point : Set := (Z * Z)%type.
Definition Trail : Set := list Point.

(** Equality of two integer pairs, as [(a, b) != (c, d)] tests it. *)
Definition pair_eqb (p q : Z * Z) : bool :=
  (fst p =? fst q) && (snd p =? snd q).

(** The list slice [l[:stop]].  A negative [stop] counts from the end, and
    both ends are clamped to the list, so the slice is defined for every
    list and every [stop]. *)
Definition slice_upto {A : Type} (l : list A) (stop : Z) : list A :=
  let n := Z.of_nat (List.length l) in
  let k := if stop <? 0 then Z.max 0 (n + stop) else Z.min stop n in
  firstn (Z.to_nat k) l.

(** The pygame key constants the game reads.  Only their being pairwise
    distinct matters; every other key is [K_other] with its code. *)
Inductive Key : Set :=
| K_w | K_s | K_a | K_d
| K_UP | K_DOWN | K_LEFT | K_RIGHT
| K_SPACE
| K_other (code : Z).

Definition Key_eqb (a b : Key) : bool :=
  match a, b with
  | K_w, K_w | K_s, K_s | K_a, K_a | K_d, K_d => true
  | K_UP, K_UP | K_DOWN, K_DOWN | K_LEFT, K_LEFT | K_RIGHT, K_RIGHT => true
  | K_SPACE, K_SPACE => true
  | K_other c, K_other c' => c =? c'
  | _, _ => false
  end.

(** A controls dict, in insertion order; [lookup] is both [key in d]
    (a [Some]) and [d[key]] (its content). *)
Definition Controls : Set := list (Key * Direction).

Fixpoint lookup (k : Key) (d : Controls) : option Direction :=
  match d with
  | [] => None
  | (k', v) :: rest => if Key_eqb k k' then Some v else lookup k rest
  end.

(** What the program asks of pygame's drawing functions, in the order it
    asks: [pygame.draw.line] and [pygame.draw.circle] on the screen,
    [screen.fill], a text rendered by the font and blitted at a position,
    and [pygame.display.flip]. *)
Inductive DrawCmd : Set :=
| DrawLine (color : Z * Z * Z) (start_pos end_pos : Point) (width : Z)
| DrawCircle (color : Z * Z * Z) (center : Point) (radius : Z)
| Fill (color : Z * Z * Z)
| Blit (text : string) (color : Z * Z * Z) (pos : Point)
| Flip.

(** ** LightCycle *)

Module LightCycle.

Record t : Set := mk {
  x : Z;
  y : Z;
  color : Z * Z * Z;
  direction : Direction;
  trail : Trail;
  key_controls : Controls;
  player_name : string;
  speed : Z;
  alive : bool
}.

(** [LightCycle.__init__] *)
Definition init (x0 y0 : Z) (color0 : Z * Z * Z) (direction0 : Direction)
           (key_controls0 : Controls) (player_name0 : string) : t :=
  {| x := x0; y := y0; color := color0; direction := direction0;
     trail := [(x0, y0)];
     key_controls := key_controls0; player_name := player_name0;
     speed := 5; alive := true |}.

Definition set_position (self : t) (x' y' : Z) : t :=
  mk x' y' (color self) (direction self) (trail self) (key_controls self)
     (player_name self) (speed self) (alive self).

Definition set_trail (self : t) (trail' : Trail) : t :=
  mk (x self) (y self) (color self) (direction self) trail'
     (key_controls self) (player_name self) (speed self) (alive self).

Definition set_direction (self : t) (d : Direction) : t :=
  mk (x self) (y self) (color self) d (trail self) (key_controls self)
     (player_name self) (speed self) (alive self).

Definition set_alive (self : t) (b : bool) : t :=
  mk (x self) (y self) (color self) (direction self) (trail self)
     (key_controls self) (player_name self) (speed self) b.

(** [LightCycle.move] *)
Definition move (self : t) : t :=
  if negb (alive self) then self
  else
    let '(dx, dy) := Dir.value (direction self) in
    let self := set_position self (x self + dx * speed self) (y self) in
    let self := set_position self (x self) (y self + dy * speed self) in
    set_trail self (trail self ++ [(x self, y self)]).

(** [LightCycle.change_direction] *)
Definition change_direction (self : t) (new_direction : Direction) : t :=
  if negb (alive self) then self
  else
    let '(current_dx, current_dy) := Dir.value (direction self) in
    let '(new_dx, new_dy) := Dir.value new_direction in
    if negb (pair_eqb (current_dx, current_dy) (- new_dx, - new_dy))
    then set_direction self new_direction
    else self.

(** The proximity test of the collision loop, for one trail point. *)
Definition near (self : t) (segment : Point) : bool :=
  (Z.abs (x self - fst segment) <? 5) && (Z.abs (y self - snd segment) <? 5).

(** The [for segment in ...] loop of [check_collision]: [true] when it
    leaves through the [return True] of its body, [false] when it runs
    to the end. *)
Fixpoint scan (self : t) (segments : Trail) : bool :=
  match segments with
  | [] => false
  | segment :: rest => if near self segment then true else scan self rest
  end.

Definition out_of_bounds (self : t) : bool :=
  (x self <? 0) || (x self >? 800) || (y self <? 0) || (y self >? 600).

(** [LightCycle.check_collision].  The call has two mutable objects in
    reach, the cycle and the list it is handed; the result carries the
    returned boolean and both objects as the call leaves them. *)
Definition check_collision (self : t) (other_trail : Trail)
  : bool * (t * Trail) :=
  if negb (alive self) then (false, (self, other_trail))
  else if out_of_bounds self then (true, (set_alive self false, other_trail))
  else if scan self (other_trail ++ slice_upto (trail self) (-10))
       then (true, (set_alive self false, other_trail))
       else (false, (self, other_trail)).

(** The [for i in range(len(self.trail) - 1)] loop of [draw], over the
    indices it visits; [None] is the [IndexError] of a subscript outside
    the trail. *)
Fixpoint draw_lines (self : t) (indices : list nat) : option (list DrawCmd) :=
  match indices with
  | [] => Some []
  | i :: rest =>
      match nth_error (trail self) i, nth_error (trail self) (S i) with
      | Some p, Some q =>
          match draw_lines self rest with
          | Some cmds => Some (DrawLine (color self) p q 3 :: cmds)
          | None => None
          end
      | _, _ => None
      end
  end.

(** [LightCycle.draw]; the coordinates are integers, on which [int] is the
    identity.  [range(n)] is empty for [n <= 0]. *)
Definition draw (self : t) : option (list DrawCmd) :=
  if negb (alive self) then Some []
  else
    match draw_lines self (seq 0 (List.length (trail self) - 1)) with
    | Some cmds => Some (cmds ++ [DrawCircle (color self) (x self, y self) 5])
    | None => None
    end.

End LightCycle.

(** ** Game *)

Inductive Event : Set :=
| QUIT
| KEYDOWN (key : Key)
| OTHER_EVENT.

Module Game.

Record t : Set := mk {
  player1_controls : Controls;
  player2_controls : Controls;
  cycle1 : LightCycle.t;
  cycle2 : LightCycle.t;
  game_over : bool;
  winner : option string
}.

Definition set_cycle1 (self : t) (c : LightCycle.t) : t :=
  mk (player1_controls self) (player2_controls self) c (cycle2 self)
     (game_over self) (winner self).

Definition set_cycle2 (self : t) (c : LightCycle.t) : t :=
  mk (player1_controls self) (player2_controls self) (cycle1 self) c
     (game_over self) (winner self).

Definition set_game_over (self : t) (b : bool) : t :=
  mk (player1_controls self) (player2_controls self) (cycle1 self)
     (cycle2 self) b (winner self).

Definition set_winner (self : t) (w : option string) : t :=
  mk (player1_controls self) (player2_controls self) (cycle1 self)
     (cycle2 self) (game_over self) w.

Definition p1_controls : Controls :=
  [(K_w, UP); (K_s, DOWN); (K_a, LEFT); (K_d, RIGHT)].

Definition p2_controls : Controls :=
  [(K_UP, UP); (K_DOWN, DOWN); (K_LEFT, LEFT); (K_RIGHT, RIGHT)].

(** [Game.__init__]: every attribute is assigned from constants, so
    re-running it on an existing game gives this same value. *)
Definition init : t :=
  {| player1_controls := p1_controls;
     player2_controls := p2_controls;
     cycle1 := LightCycle.init 200 300 (0, 255, 255) RIGHT p1_controls
                               "Player 1";
     cycle2 := LightCycle.init 600 300 (255, 255, 0) LEFT p2_controls
                               "Player 2";
     game_over := false;
     winner := None |}.

Definition set_player1_controls (self : t) (c : Controls) : t :=
  mk c (player2_controls self) (cycle1 self) (cycle2 self)
     (game_over self) (winner self).

Definition set_player2_controls (self : t) (c : Controls) : t :=
  mk (player1_controls self) c (cycle1 self) (cycle2 self)
     (game_over self) (winner self).

(** [self.__init__()] on a game that exists already, which is how the
    program restarts: the assignments of [__init__] to the attributes of
    [self], one after the other. *)
Definition reinit (self : t) : t :=
  let self := set_player1_controls self p1_controls in
  let self := set_player2_controls self p2_controls in
  let self :=
    set_cycle1 self (LightCycle.init 200 300 (0, 255, 255) RIGHT
                                     (player1_controls self) "Player 1") in
  let self :=
    set_cycle2 self (LightCycle.init 600 300 (255, 255, 0) LEFT
                                     (player2_controls self) "Player 2") in
  let self := set_game_over self false in
  set_winner self None.

(** The body of [if event.type == pygame.KEYDOWN:] in
    [handle_keyboard_input]. *)
Definition handle_keydown (self : t) (key : Key) : t :=
  let self :=
    match lookup key (LightCycle.key_controls (cycle1 self)) with
    | Some d =>
        if LightCycle.alive (cycle1 self)
        then set_cycle1 self (LightCycle.change_direction (cycle1 self) d)
        else self
    | None => self
    end in
  let self :=
    match lookup key (LightCycle.key_controls (cycle2 self)) with
    | Some d =>
        if LightCycle.alive (cycle2 self)
        then set_cycle2 self (LightCycle.change_direction (cycle2 self) d)
        else self
    | None => self
    end in
  if Key_eqb key K_SPACE && game_over self then init else self.

(** [Game.handle_keyboard_input] over the events pygame hands out;
    [None] is the process leaving through [sys.exit()]. *)
Fixpoint handle_keyboard_input (self : t) (events : list Event)
  : option t :=
  match events with
  | [] => Some self
  | QUIT :: _ => None
  | KEYDOWN key :: rest => handle_keyboard_input (handle_keydown self key) rest
  | OTHER_EVENT :: rest => handle_keyboard_input self rest
  end.

(** [Game.handle_mouse_input], given what [pygame.mouse] reports: whether
    the left button is down and where the pointer is. *)
Definition handle_mouse_input (self : t) (left_pressed : bool)
           (mouse_pos : Z * Z) : t :=
  if left_pressed && game_over self then
    if (300 <? fst mouse_pos) && (fst mouse_pos <? 500)
       && (400 <? snd mouse_pos) && (snd mouse_pos <? 450)
    then init else self
  else self.

(** [Game.update].  Each [check_collision] is handed the other cycle's
    own list object, so that cycle's trail afterwards is the list as the
    call left it.  The [or] does not evaluate its second operand when the
    first is true. *)
Definition update (self : t) : t :=
  if game_over self then self
  else
    let self := set_cycle1 self (LightCycle.move (cycle1 self)) in
    let self := set_cycle2 self (LightCycle.move (cycle2 self)) in
    let '(hit1, (c1, t2)) :=
      LightCycle.check_collision (cycle1 self)
                                 (LightCycle.trail (cycle2 self)) in
    let self := set_cycle1 self c1 in
    let self := set_cycle2 self (LightCycle.set_trail (cycle2 self) t2) in
    let '(hit, self) :=
      if hit1 then (true, self)
      else
        let '(hit2, (c2, t1)) :=
          LightCycle.check_collision (cycle2 self)
                                     (LightCycle.trail (cycle1 self)) in
        let self := set_cycle2 self c2 in
        let self :=
          set_cycle1 self (LightCycle.set_trail (cycle1 self) t1) in
        (hit2, self) in
    if hit then
      let self := set_game_over self true in
      if negb (LightCycle.alive (cycle1 self))
         && negb (LightCycle.alive (cycle2 self))
      then set_winner self (Some "Draw"%string)
      else if negb (LightCycle.alive (cycle1 self))
      then set_winner self (Some (LightCycle.player_name (cycle2 self)))
      else set_winner self (Some (LightCycle.player_name (cycle1 self)))
    else self.

(** What the driver feeds the game: a frame's [update], a key press, or a
    left click at a pointer position. *)
Inductive Input : Set :=
| Tick
| KeyDown (key : Key)
| Click (mouse_pos : Z * Z).

Definition step (self : t) (i : Input) : t :=
  match i with
  | Tick => update self
  | KeyDown key => handle_keydown self key
  | Click mouse_pos => handle_mouse_input self true mouse_pos
  end.

Definition run (self : t) (inputs : list Input) : t :=
  fold_left step inputs self.

(** A restart is the one input that re-runs [__init__]: the space bar, or
    a click inside the button, once the game is over. *)
Definition in_button (mouse_pos : Z * Z) : bool :=
  (300 <? fst mouse_pos) && (fst mouse_pos <? 500)
  && (400 <? snd mouse_pos) && (snd mouse_pos <? 450).

Definition restart_request (i : Input) : bool :=
  match i with
  | Tick => false
  | KeyDown key => Key_eqb key K_SPACE
  | Click mouse_pos => in_button mouse_pos
  end.

(** [str(self.winner)] as the f-string of [draw] formats it. *)
Definition winner_str (w : option string) : string :=
  match w with
  | Some name => name
  | None => "None"
  end.

(** [Game.draw]: the drawing requests of one frame, in order. *)
Definition draw (self : t) : option (list DrawCmd) :=
  match LightCycle.draw (cycle1 self) with
  | None => None
  | Some trail1 =>
      match LightCycle.draw (cycle2 self) with
      | None => None
      | Some trail2 =>
          Some ([Fill (0, 0, 0)] ++ trail1 ++ trail2
                ++ (if game_over self
                    then [Blit ("Game Over! " ++ winner_str (winner self)
                                ++ " Wins!") (255, 255, 255) (300, 300);
                          Blit "Click to Restart" (255, 255, 255) (300, 400)]
                    else [])
                ++ [Flip])
      end
  end.

(** What pygame reports during one pass of the loop of [run]: the queued
    events, and the mouse state. *)
Record FrameInput : Set := mkFrame {
  events : list Event;
  left_pressed : bool;
  mouse_pos : Z * Z
}.

(** How a piece of the program ends: normally with a value, through
    [sys.exit()], or with an [IndexError]. *)
Inductive Result (A : Type) : Type :=
| Ok (a : A)
| SysExit
| IndexError.
Arguments Ok {A} a.
Arguments SysExit {A}.
Arguments IndexError {A}.

(** One pass of the [while True] loop of [Game.run]: keyboard, mouse,
    [update], [draw].  The frame pacing of [clock.tick(60)] is not
    modelled. *)
Definition frame (self : t) (f : FrameInput)
  : Result (t * list DrawCmd) :=
  match handle_keyboard_input self (events f) with
  | None => SysExit
  | Some self =>
      let self := handle_mouse_input self (left_pressed f) (mouse_pos f) in
      let self := update self in
      match draw self with
      | Some cmds => Ok (self, cmds)
      | None => IndexError
      end
  end.

(** [Game.run] over the first passes of its loop, one [FrameInput] each:
    the game they leave and the screens they drew.  (The loop itself never
    returns; [run] above is the input-by-input view of the same game.) *)
Fixpoint main_loop (self : t) (frames : list FrameInput)
  : Result (t * list (list DrawCmd)) :=
  match frames with
  | [] => Ok (self, [])
  | f :: rest =>
      match frame self f with
      | Ok (self, cmds) =>
          match main_loop self rest with
          | Ok (final, screens) => Ok (final, cmds :: screens)
          | SysExit => SysExit
          | IndexError => IndexError
          end
      | SysExit => SysExit
      | IndexError => IndexError
      end
  end.

End Game.

(** [main]: a fresh [Game], then its loop. *)
Definition main (frames : list Game.FrameInput)
  : Game.Result (Game.t * list (list DrawCmd)) :=
  Game.main_loop Game.init frames.


(** ** Notions the properties are stated with *)

(** The proximity box: the position of [c] is within 5 of [p] on both
    axes. *)
Definition touches (c : LightCycle.t) (p : Point) : Prop :=
  Z.abs (LightCycle.x c - fst p) < 5 /\ Z.abs (LightCycle.y c - snd p) < 5.

(** What a cycle reports against a trail, as a function of the cycle and
    the trail: the boolean [check_collision] returns. *)
Definition collides (c : LightCycle.t) (other_trail : Trail) : bool :=
  LightCycle.alive c
  && (LightCycle.out_of_bounds c
      || LightCycle.scan c (other_trail ++ slice_upto (LightCycle.trail c) (-10))).

(** What one key press makes of a cycle: the cycle after the forwarding
    [if event.key in cycle.key_controls and cycle.alive] of the handler. *)
Definition turned (c : LightCycle.t) (key : Key) : LightCycle.t :=
  match lookup key (LightCycle.key_controls c) with
  | Some d =>
      if LightCycle.alive c then LightCycle.change_direction c d else c
  | None => c
  end.

(** The three outcomes a game can be in: still running with both cycles
    alive and no winner, or over with exactly one cycle dead and the other
    one named. *)
Inductive Outcome (g : Game.t) : Prop :=
| Running :
    Game.game_over g = false -> Game.winner g = None ->
    LightCycle.alive (Game.cycle1 g) = true ->
    LightCycle.alive (Game.cycle2 g) = true -> Outcome g
| SecondWins :
    Game.game_over g = true -> Game.winner g = Some "Player 2"%string ->
    LightCycle.alive (Game.cycle1 g) = false ->
    LightCycle.alive (Game.cycle2 g) = true -> Outcome g
| FirstWins :
    Game.game_over g = true -> Game.winner g = Some "Player 1"%string ->
    LightCycle.alive (Game.cycle1 g) = true ->
    LightCycle.alive (Game.cycle2 g) = false -> Outcome g.

(** What holds of every game the driver can bring about. *)
Record Inv (g : Game.t) : Prop := {
  inv_trail1 : LightCycle.trail (Game.cycle1 g) <> [];
  inv_trail2 : LightCycle.trail (Game.cycle2 g) <> [];
  inv_controls1 : LightCycle.key_controls (Game.cycle1 g) = Game.p1_controls;
  inv_controls2 : LightCycle.key_controls (Game.cycle2 g) = Game.p2_controls;
  inv_name1 : LightCycle.player_name (Game.cycle1 g) = "Player 1"%string;
  inv_name2 : LightCycle.player_name (Game.cycle2 g) = "Player 2"%string;
  inv_speed1 : LightCycle.speed (Game.cycle1 g) = 5;
  inv_speed2 : LightCycle.speed (Game.cycle2 g) = 5;
  inv_outcome : Outcome g
}.


(** ** Notions for the geometry of reachable games *)

(** The position of a cycle, as a point. *)
Definition position (c : LightCycle.t) : Point :=
  (LightCycle.x c, LightCycle.y c).

(** Both coordinates are multiples of the step length. *)
Definition on_grid (p : Point) : Prop :=
  fst p mod 5 = 0 /\ snd p mod 5 = 0.

(** Inside the playfield, borders included. *)
Definition in_field (p : Point) : Prop :=
  0 <= fst p <= 800 /\ 0 <= snd p <= 600.

(** Two points are within the proximity box of each other. *)
Definition close (p q : Point) : Prop :=
  Z.abs (fst p - fst q) < 5 /\ Z.abs (snd p - snd q) < 5.

(** No point of a trail is repeated ten or more entries later. *)
Definition separated (l : Trail) : Prop :=
  forall (i j : nat) (p q : Point),
    nth_error l i = Some p -> nth_error l j = Some q ->
    (i + 10 <= j)%nat -> p <> q.

(** No point of one trail is within the box of a point of the other. *)
Definition apart (l1 l2 : Trail) : Prop :=
  forall p q : Point, In p l1 -> In q l2 -> ~ close p q.

(** [q] is one step of length 5 away from [p], along an axis. *)
Definition one_step (p q : Point) : Prop :=
  exists d : Direction,
    q = (fst p + fst (Dir.value d) * 5, snd p + snd (Dir.value d) * 5).

(** Each entry of the trail is one step away from the entry before. *)
Definition lattice_path (l : Trail) : Prop :=
  Forall (fun pq => one_step (fst pq) (snd pq)) (combine l (tl l)).

(** The geometry of a cycle's trail, and of the two trails of a game. *)
Record CycleGeometry (c : LightCycle.t) : Prop := {
  geo_last : last (LightCycle.trail c) (0, 0) = position c;
  geo_grid : Forall on_grid (LightCycle.trail c);
  geo_path : lattice_path (LightCycle.trail c)
}.

Record Geometry (g : Game.t) : Prop := {
  geo_cycle1 : CycleGeometry (Game.cycle1 g);
  geo_cycle2 : CycleGeometry (Game.cycle2 g);
  geo_length : List.length (LightCycle.trail (Game.cycle1 g)) =
               List.length (LightCycle.trail (Game.cycle2 g));
  geo_field1 : Game.game_over g = false ->
               Forall in_field (LightCycle.trail (Game.cycle1 g));
  geo_field2 : Game.game_over g = false ->
               Forall in_field (LightCycle.trail (Game.cycle2 g));
  geo_separated1 : Game.game_over g = false ->
                   separated (LightCycle.trail (Game.cycle1 g));
  geo_separated2 : Game.game_over g = false ->
                   separated (LightCycle.trail (Game.cycle2 g));
  geo_apart : Game.game_over g = false ->
              apart (LightCycle.trail (Game.cycle1 g))
                    (LightCycle.trail (Game.cycle2 g))
}.




(** The inputs one pass of the loop amounts to: its key presses in order,
    the click if the left button is down, then the frame's [update]. *)
Fixpoint key_presses (events : list Event) : list Game.Input :=
  match events with
  | [] => []
  | KEYDOWN key :: rest => Game.KeyDown key :: key_presses rest
  | _ :: rest => key_presses rest
  end.

Definition frame_inputs (f : Game.FrameInput) : list Game.Input :=
  key_presses (Game.events f)
  ++ (if Game.left_pressed f then [Game.Click (Game.mouse_pos f)] else [])
  ++ [Game.Tick].

(** No event of the frames is a QUIT. *)
Definition no_quit (frames : list Game.FrameInput) : Prop :=
  Forall (fun f => ~ In QUIT (Game.events f)) frames.

(** The line segments joining each trail entry to the next. *)
Definition segments (c : LightCycle.t) : list DrawCmd :=
  map (fun pq => DrawLine (LightCycle.color c) (fst pq) (snd pq) 3)
      (combine (LightCycle.trail c) (tl (LightCycle.trail c))).


(** The direction opposite to [d], and one across it. *)
Definition reverse (d : Direction) : Direction :=
  match d with UP => DOWN | DOWN => UP | LEFT => RIGHT | RIGHT => LEFT end.

Definition side_step (d : Direction) : Direction :=
  match d with UP | DOWN => LEFT | LEFT | RIGHT => UP end.

(** The key each player's controls bind to a direction. *)
Definition p1_key (d : Direction) : Key :=
  match d with UP => K_w | DOWN => K_s | LEFT => K_a | RIGHT => K_d end.

Definition p2_key (d : Direction) : Key :=
  match d with
  | UP => K_UP | DOWN => K_DOWN | LEFT => K_LEFT | RIGHT => K_RIGHT
  end.


(** What an alive cycle puts on the screen: its trail as line segments,
    then a disc where it stands. *)
Definition cycle_picture (c : LightCycle.t) : list DrawCmd :=
  segments c
  ++ [DrawCircle (LightCycle.color c) (LightCycle.x c, LightCycle.y c) 5].

(** The two texts of the game-over screen, for a winner's name. *)
Definition banner (name : string) : list DrawCmd :=
  [Blit ("Game Over! " ++ name ++ " Wins!") (255, 255, 255) (300, 300);
   Blit "Click to Restart" (255, 255, 255) (300, 400)].




(** * Properties *)

(** ** Directions *)

Lemma pair_eqb_spec (p q : Z * Z) : pair_eqb p q = true <-> p = q.
Proof.
  destruct p as [a b], q as [c d]; unfold pair_eqb; cbn [fst snd].
  rewrite andb_true_iff, !Z.eqb_eq.
  split; [intros [-> ->]; reflexivity | intros [= -> ->]; split; reflexivity].
Qed.

Lemma opposite_cases (a b : Direction) :
  Dir.opposite a b <->
  (a = UP /\ b = DOWN) \/ (a = DOWN /\ b = UP) \/
  (a = LEFT /\ b = RIGHT) \/ (a = RIGHT /\ b = LEFT).
Proof.
  unfold Dir.opposite; split.
  - destruct a, b; cbn; intros E; try discriminate E; tauto.
  - intros [[-> ->] | [[-> ->] | [[-> ->] | [-> ->]]]]; reflexivity.
Qed.

Lemma opposite_sym (a b : Direction) : Dir.opposite a b -> Dir.opposite b a.
Proof. rewrite !opposite_cases; tauto. Qed.

(** The test [change_direction] makes is the opposite-direction test. *)
Lemma reversal_test (cur new : Direction) :
  pair_eqb (fst (Dir.value cur), snd (Dir.value cur))
           (- fst (Dir.value new), - snd (Dir.value new)) = true
  <-> Dir.opposite cur new.
Proof.
  rewrite pair_eqb_spec; unfold Dir.opposite.
  destruct (Dir.value cur); reflexivity.
Qed.

(** ** LightCycle.move and LightCycle.change_direction *)

Section Cycle.

Import LightCycle.
Variable self : LightCycle.t.

Lemma move_dead : alive self = false -> move self = self.
Proof. intros H; unfold move; rewrite H; reflexivity. Qed.

Lemma move_alive :
  alive self = true ->
  move self =
  mk (x self + fst (Dir.value (direction self)) * speed self)
     (y self + snd (Dir.value (direction self)) * speed self)
     (color self) (direction self)
     (trail self ++ [(x self + fst (Dir.value (direction self)) * speed self,
                      y self + snd (Dir.value (direction self)) * speed self)])
     (key_controls self) (player_name self) (speed self) true.
Proof.
  intros H; unfold move; rewrite H; cbn [negb].
  destruct (Dir.value (direction self)) as [dx dy].
  unfold set_trail, set_position; cbn.
  rewrite H; reflexivity.
Qed.

Lemma move_keeps_alive : alive (move self) = alive self.
Proof.
  destruct (alive self) eqn:H.
  - rewrite (move_alive H); reflexivity.
  - rewrite (move_dead H); exact H.
Qed.

Lemma move_keeps_speed : speed (move self) = speed self.
Proof.
  destruct (alive self) eqn:H.
  - rewrite (move_alive H); reflexivity.
  - rewrite (move_dead H); reflexivity.
Qed.

Lemma move_keeps_identity :
  player_name (move self) = player_name self /\
  key_controls (move self) = key_controls self /\
  direction (move self) = direction self /\
  color (move self) = color self.
Proof.
  destruct (alive self) eqn:H.
  - rewrite (move_alive H); cbn; auto.
  - rewrite (move_dead H); auto.
Qed.

Lemma change_direction_dead (d : Direction) :
  alive self = false -> change_direction self d = self.
Proof. intros H; unfold change_direction; rewrite H; reflexivity. Qed.

Lemma change_direction_alive (d : Direction) :
  alive self = true ->
  change_direction self d =
  if negb (pair_eqb (fst (Dir.value (direction self)),
                     snd (Dir.value (direction self)))
                    (- fst (Dir.value d), - snd (Dir.value d)))
  then set_direction self d else self.
Proof.
  intros H; unfold change_direction; rewrite H; cbn [negb].
  destruct (Dir.value (direction self)), (Dir.value d); reflexivity.
Qed.

Lemma eta : mk (x self) (y self) (color self) (direction self) (trail self)
               (key_controls self) (player_name self) (speed self)
               (alive self) = self.
Proof. destruct self; reflexivity. Qed.

(** A turn touches the direction and nothing else. *)
Lemma change_direction_frame (d : Direction) :
  change_direction self d = set_direction self (direction (change_direction self d)).
Proof.
  destruct (alive self) eqn:H.
  - rewrite (change_direction_alive d H).
    destruct (negb _); cbn; [reflexivity | unfold set_direction; now rewrite eta].
  - rewrite (change_direction_dead d H); unfold set_direction; now rewrite eta.
Qed.

End Cycle.

Lemma change_direction_accepts (c : LightCycle.t) (d : Direction) :
  LightCycle.alive c = true ->
  ~ Dir.opposite d (LightCycle.direction c) ->
  LightCycle.direction (LightCycle.change_direction c d) = d.
Proof.
  intros Halive Hn. rewrite (change_direction_alive c d Halive).
  destruct (pair_eqb _ _) eqn:E; cbn; [| reflexivity].
  apply reversal_test, opposite_sym in E. contradiction.
Qed.

Lemma change_direction_rejects (c : LightCycle.t) (d : Direction) :
  LightCycle.alive c = true ->
  Dir.opposite d (LightCycle.direction c) ->
  LightCycle.change_direction c d = c.
Proof.
  intros Halive Hop. rewrite (change_direction_alive c d Halive).
  apply opposite_sym, reversal_test in Hop. rewrite Hop; reflexivity.
Qed.

(** C4: for an alive cycle, a turn towards the exact opposite of the
    current direction leaves the direction as it is, and a turn towards any
    other direction, the current one included, makes it the direction; in
    both cases nothing but the direction is touched. *)
Theorem change_direction_no_reversal (c : LightCycle.t) (d : Direction) :
  LightCycle.alive c = true ->
  (Dir.opposite d (LightCycle.direction c) ->
   LightCycle.direction (LightCycle.change_direction c d) = LightCycle.direction c)
  /\ (~ Dir.opposite d (LightCycle.direction c) ->
      LightCycle.direction (LightCycle.change_direction c d) = d)
  /\ (d = LightCycle.direction c ->
      LightCycle.direction (LightCycle.change_direction c d) = d)
  /\ LightCycle.change_direction c d =
     LightCycle.set_direction c
       (LightCycle.direction (LightCycle.change_direction c d)).
Proof.
  intros Halive.
  split; [| split; [| split]].
  - intros Hop. now rewrite (change_direction_rejects c d Halive Hop).
  - now apply change_direction_accepts.
  - intros ->. apply (change_direction_accepts _ _ Halive).
    rewrite opposite_cases.
    destruct (LightCycle.direction c);
      intros [[? ?] | [[? ?] | [[? ?] | [? ?]]]]; discriminate.
  - apply change_direction_frame.
Qed.

(** A cycle heading RIGHT refuses LEFT and accepts UP and RIGHT. *)
Lemma change_direction_no_reversal_witness :
  let c := LightCycle.init 200 300 (0, 255, 255) RIGHT Game.p1_controls "Player 1" in
  LightCycle.direction (LightCycle.change_direction c LEFT) = RIGHT
  /\ LightCycle.direction (LightCycle.change_direction c UP) = UP
  /\ LightCycle.direction (LightCycle.change_direction c RIGHT) = RIGHT.
Proof.
  intros c.
  destruct (change_direction_no_reversal c LEFT eq_refl) as [HL _].
  destruct (change_direction_no_reversal c UP eq_refl) as [_ [HU _]].
  destruct (change_direction_no_reversal c RIGHT eq_refl) as [_ [_ [HR _]]].
  split; [| split].
  - apply HL. reflexivity.
  - apply HU. cbv. discriminate.
  - apply HR. reflexivity.
Defined.

(** ** LightCycle.check_collision *)

(** The slice [trail[:-10]] drops the last [min 10 (len trail)] entries. *)
Lemma slice_upto_grace {A : Type} (l : list A) :
  slice_upto l (-10) =
  firstn (List.length l - Nat.min 10 (List.length l)) l.
Proof.
  unfold slice_upto. cbn [Z.ltb Z.compare].
  f_equal. lia.
Qed.

Lemma slice_upto_short {A : Type} (l : list A) :
  (List.length l < 10)%nat -> slice_upto l (-10) = [].
Proof.
  intros H. rewrite slice_upto_grace.
  replace (List.length l - Nat.min 10 (List.length l))%nat with 0%nat by lia.
  reflexivity.
Qed.

(** What remains of the trail once the slice is taken off is the excluded
    tail, of length [min 10 (len trail)]. *)
Lemma slice_upto_split {A : Type} (l : list A) :
  exists recent,
    l = slice_upto l (-10) ++ recent
    /\ List.length recent = Nat.min 10 (List.length l).
Proof.
  rewrite slice_upto_grace.
  exists (skipn (List.length l - Nat.min 10 (List.length l)) l).
  split; [symmetry; apply firstn_skipn | rewrite length_skipn; lia].
Qed.

Lemma near_spec (c : LightCycle.t) (p : Point) :
  LightCycle.near c p = true <-> touches c p.
Proof.
  unfold LightCycle.near, touches.
  rewrite andb_true_iff, !Z.ltb_lt. reflexivity.
Qed.

Lemma scan_spec (c : LightCycle.t) (segments : Trail) :
  LightCycle.scan c segments = true <-> Exists (touches c) segments.
Proof.
  induction segments as [| p rest IH]; cbn.
  - split; [discriminate | intros H; inversion H].
  - destruct (LightCycle.near c p) eqn:E.
    + split; [intros _; left; now apply near_spec | reflexivity].
    + rewrite IH. split; [intros H; now right |].
      intros H; inversion H as [? ? Hp | ? ? Hr]; subst; [| exact Hr].
      apply near_spec in Hp. congruence.
Qed.

Lemma out_of_bounds_spec (c : LightCycle.t) :
  LightCycle.out_of_bounds c = true <->
  LightCycle.x c < 0 \/ LightCycle.x c > 800 \/
  LightCycle.y c < 0 \/ LightCycle.y c > 600.
Proof.
  unfold LightCycle.out_of_bounds.
  rewrite !orb_true_iff, !Z.ltb_lt, !Z.gtb_gt. tauto.
Qed.

Lemma check_collision_eq (c : LightCycle.t) (other_trail : Trail) :
  LightCycle.check_collision c other_trail =
  (collides c other_trail,
   (if collides c other_trail then LightCycle.set_alive c false else c,
    other_trail)).
Proof.
  unfold LightCycle.check_collision, collides.
  destruct (LightCycle.alive c); cbn; [| reflexivity].
  destruct (LightCycle.out_of_bounds c); cbn; [reflexivity |].
  destruct (LightCycle.scan c _); reflexivity.
Qed.

Lemma collides_dead (c : LightCycle.t) (other_trail : Trail) :
  LightCycle.alive c = false -> collides c other_trail = false.
Proof. intros H; unfold collides; rewrite H; reflexivity. Qed.

Lemma collides_out_of_bounds (c : LightCycle.t) (other_trail : Trail) :
  LightCycle.alive c = true -> LightCycle.out_of_bounds c = true ->
  collides c other_trail = true.
Proof. intros H1 H2; unfold collides; rewrite H1, H2; reflexivity. Qed.

Lemma collides_in_bounds (c : LightCycle.t) (other_trail : Trail) :
  LightCycle.alive c = true -> LightCycle.out_of_bounds c = false ->
  collides c other_trail =
  LightCycle.scan c (other_trail ++ slice_upto (LightCycle.trail c) (-10)).
Proof. intros H1 H2; unfold collides; rewrite H1, H2; reflexivity. Qed.

Lemma in_bounds_spec (c : LightCycle.t) :
  0 <= LightCycle.x c <= 800 -> 0 <= LightCycle.y c <= 600 ->
  LightCycle.out_of_bounds c = false.
Proof.
  intros Hx Hy. destruct (LightCycle.out_of_bounds c) eqn:E; [| reflexivity].
  apply out_of_bounds_spec in E. lia.
Qed.

(** C2: for an alive cycle inside the playfield, [check_collision] scans
    the whole of [other_trail] followed by the cycle's own trail without
    its last [min 10 (len trail)] entries (the slice is defined for every
    trail length); it returns true and clears [alive] exactly when some
    scanned point is within 5 of the position on both axes, and returns
    false, changing nothing, otherwise.  With fewer than 10 own trail
    points and an empty [other_trail] it returns false. *)
Theorem check_collision_scans (c : LightCycle.t) (other_trail : Trail) :
  LightCycle.alive c = true ->
  0 <= LightCycle.x c <= 800 ->
  0 <= LightCycle.y c <= 600 ->
  let n := List.length (LightCycle.trail c) in
  let scanned := other_trail ++ firstn (n - Nat.min 10 n) (LightCycle.trail c) in
  other_trail ++ slice_upto (LightCycle.trail c) (-10) = scanned
  /\ (Exists (touches c) scanned ->
      LightCycle.check_collision c other_trail =
      (true, (LightCycle.set_alive c false, other_trail)))
  /\ (~ Exists (touches c) scanned ->
      LightCycle.check_collision c other_trail = (false, (c, other_trail)))
  /\ ((n < 10)%nat -> other_trail = [] ->
      LightCycle.check_collision c other_trail = (false, (c, other_trail))).
Proof.
  intros Halive Hx Hy n scanned.
  assert (Hs : other_trail ++ slice_upto (LightCycle.trail c) (-10) = scanned).
  { subst scanned n. now rewrite slice_upto_grace. }
  pose proof (collides_in_bounds c other_trail Halive (in_bounds_spec c Hx Hy))
    as Hc.
  rewrite Hs in Hc.
  assert (Hmiss : ~ Exists (touches c) scanned ->
          LightCycle.check_collision c other_trail = (false, (c, other_trail))).
  { intros Hn. rewrite check_collision_eq, Hc.
    destruct (LightCycle.scan c scanned) eqn:E; [| reflexivity].
    apply scan_spec in E. contradiction. }
  split; [exact Hs | split; [| split; [exact Hmiss |]]].
  - intros Hex. apply scan_spec in Hex.
    rewrite check_collision_eq, Hc, Hex. reflexivity.
  - intros Hn ->. apply Hmiss. subst scanned.
    replace (n - Nat.min 10 n)%nat with 0%nat by lia.
    cbn. intros H; inversion H.
Qed.

(** A cycle that has made five moves to the right, tested against a trail
    lying on its position and against an empty one. *)
Lemma check_collision_scans_witness :
  let c := LightCycle.mk 225 300 (0, 255, 255) RIGHT
             [(200, 300); (205, 300); (210, 300); (215, 300); (220, 300);
              (225, 300)] Game.p1_controls "Player 1" 5 true in
  LightCycle.check_collision c [(400, 300); (227, 303)] =
    (true, (LightCycle.set_alive c false, [(400, 300); (227, 303)]))
  /\ LightCycle.check_collision c [] = (false, (c, [])).
Proof.
  intros c.
  assert (Hx : 0 <= LightCycle.x c <= 800) by (cbn; lia).
  assert (Hy : 0 <= LightCycle.y c <= 600) by (cbn; lia).
  split.
  - apply (check_collision_scans c [(400, 300); (227, 303)] eq_refl Hx Hy).
    right; left. unfold touches; cbn; lia.
  - apply (check_collision_scans c [] eq_refl Hx Hy); [cbn; lia | reflexivity].
Defined.

(** C10: [check_collision] leaves position, direction, trail, speed, name,
    colour and controls of the cycle as they were, and the list it was
    handed too; the only attribute that can differ is [alive].  For an alive
    cycle [alive] is cleared exactly when the call returns true; for a dead
    cycle the call returns false and changes nothing. *)
Theorem check_collision_frame :
  forall (c : LightCycle.t) (other_trail : Trail),
    let result := LightCycle.check_collision c other_trail in
    let c' := fst (snd result) in
    LightCycle.x c' = LightCycle.x c
    /\ LightCycle.y c' = LightCycle.y c
    /\ LightCycle.direction c' = LightCycle.direction c
    /\ LightCycle.trail c' = LightCycle.trail c
    /\ LightCycle.speed c' = LightCycle.speed c
    /\ LightCycle.player_name c' = LightCycle.player_name c
    /\ LightCycle.color c' = LightCycle.color c
    /\ LightCycle.key_controls c' = LightCycle.key_controls c
    /\ snd (snd result) = other_trail
    /\ c' = LightCycle.set_alive c (LightCycle.alive c')
    /\ (LightCycle.alive c = true ->
        (LightCycle.alive c' = false <-> fst result = true))
    /\ (LightCycle.alive c = false -> result = (false, (c, other_trail))).
Proof.
  intros c other_trail result c'; subst c' result.
  rewrite check_collision_eq; cbn [fst snd].
  destruct (collides c other_trail) eqn:E.
  - cbn. repeat split; auto.
    intros Hd. rewrite (collides_dead c other_trail Hd) in E. discriminate E.
  - repeat split; auto.
    + unfold LightCycle.set_alive. now rewrite eta.
    + congruence.
    + discriminate.
Qed.

(** ** Game.update *)

Lemma set_trail_same (c : LightCycle.t) :
  LightCycle.set_trail c (LightCycle.trail c) = c.
Proof. destruct c; reflexivity. Qed.

Lemma update_finished (g : Game.t) :
  Game.game_over g = true -> Game.update g = g.
Proof. intros H; unfold Game.update; rewrite H; reflexivity. Qed.

(** One frame of a running game, by what each moved cycle reports.  The
    second cycle is asked only when the first reports nothing. *)
Lemma update_running (g : Game.t) :
  Game.game_over g = false ->
  let c1 := LightCycle.move (Game.cycle1 g) in
  let c2 := LightCycle.move (Game.cycle2 g) in
  Game.update g =
  if collides c1 (LightCycle.trail c2) then
    Game.mk (Game.player1_controls g) (Game.player2_controls g)
            (LightCycle.set_alive c1 false) c2 true
            (Some (if negb (LightCycle.alive c2) then "Draw"%string
                   else LightCycle.player_name c2))
  else if collides c2 (LightCycle.trail c1) then
    Game.mk (Game.player1_controls g) (Game.player2_controls g)
            c1 (LightCycle.set_alive c2 false) true
            (Some (if negb (LightCycle.alive c1) then "Draw"%string
                   else LightCycle.player_name c1))
  else
    Game.mk (Game.player1_controls g) (Game.player2_controls g)
            c1 c2 false (Game.winner g).
Proof.
  intros H c1 c2. unfold Game.update. rewrite H.
  cbn [Game.cycle1 Game.cycle2 Game.set_cycle1 Game.set_cycle2].
  fold c1 c2. rewrite check_collision_eq.
  cbn [Game.cycle1 Game.cycle2 Game.set_cycle1 Game.set_cycle2
       Game.player1_controls Game.player2_controls Game.game_over Game.winner].
  rewrite set_trail_same.
  destruct (collides c1 (LightCycle.trail c2)) eqn:E1.
  - cbn. destruct (LightCycle.alive c2); reflexivity.
  - cbn [Game.cycle1 Game.cycle2 Game.set_cycle1 Game.set_cycle2
       Game.player1_controls Game.player2_controls Game.game_over Game.winner].
    rewrite check_collision_eq.
    cbn [Game.cycle1 Game.cycle2 Game.set_cycle1 Game.set_cycle2
       Game.player1_controls Game.player2_controls Game.game_over Game.winner].
    rewrite set_trail_same.
    destruct (collides c2 (LightCycle.trail c1)) eqn:E2.
    + cbn. destruct (LightCycle.alive c1); reflexivity.
    + unfold Game.set_cycle1, Game.set_cycle2; cbn. rewrite H. reflexivity.
Qed.

Lemma set_alive_alive (c : LightCycle.t) (b : bool) :
  LightCycle.alive (LightCycle.set_alive c b) = b.
Proof. reflexivity. Qed.

(** When exactly one of the two moved cycles reports a collision, the other
    one is the winner. *)
Lemma update_single_collision (g : Game.t) :
  Game.game_over g = false ->
  LightCycle.alive (Game.cycle1 g) = true ->
  LightCycle.alive (Game.cycle2 g) = true ->
  let c1 := LightCycle.move (Game.cycle1 g) in
  let c2 := LightCycle.move (Game.cycle2 g) in
  (collides c1 (LightCycle.trail c2) = true ->
   collides c2 (LightCycle.trail c1) = false ->
   Game.winner (Game.update g) = Some (LightCycle.player_name (Game.cycle2 g))
   /\ Game.game_over (Game.update g) = true)
  /\ (collides c1 (LightCycle.trail c2) = false ->
      collides c2 (LightCycle.trail c1) = true ->
      Game.winner (Game.update g) = Some (LightCycle.player_name (Game.cycle1 g))
      /\ Game.game_over (Game.update g) = true)
  /\ (collides c1 (LightCycle.trail c2) = false ->
      collides c2 (LightCycle.trail c1) = false ->
      Game.winner (Game.update g) = Game.winner g
      /\ Game.game_over (Game.update g) = false).
Proof.
  intros H A1 A2 c1 c2. rewrite (update_running g H). fold c1 c2.
  assert (A1' : LightCycle.alive c1 = true)
    by (subst c1; now rewrite move_keeps_alive).
  assert (A2' : LightCycle.alive c2 = true)
    by (subst c2; now rewrite move_keeps_alive).
  assert (N1 : LightCycle.player_name c1 = LightCycle.player_name (Game.cycle1 g))
    by apply move_keeps_identity.
  assert (N2 : LightCycle.player_name c2 = LightCycle.player_name (Game.cycle2 g))
    by apply move_keeps_identity.
  split; [| split]; intros E1 E2; rewrite E1; try rewrite E2; cbn;
    rewrite ?A1', ?A2', ?N1, ?N2; cbn; split; reflexivity.
Qed.

(** When both moved cycles would report a collision, only the first is
    asked: it dies, the second stays alive and is named the winner. *)
Lemma update_double_collision (g : Game.t) :
  Game.game_over g = false ->
  LightCycle.alive (Game.cycle1 g) = true ->
  LightCycle.alive (Game.cycle2 g) = true ->
  let c1 := LightCycle.move (Game.cycle1 g) in
  let c2 := LightCycle.move (Game.cycle2 g) in
  collides c1 (LightCycle.trail c2) = true ->
  collides c2 (LightCycle.trail c1) = true ->
  Game.winner (Game.update g) = Some (LightCycle.player_name (Game.cycle2 g))
  /\ LightCycle.alive (Game.cycle1 (Game.update g)) = false
  /\ LightCycle.alive (Game.cycle2 (Game.update g)) = true.
Proof.
  intros H A1 A2 c1 c2 E1 _. rewrite (update_running g H). fold c1 c2.
  rewrite E1; cbn.
  assert (A2' : LightCycle.alive c2 = true)
    by (subst c2; now rewrite move_keeps_alive).
  rewrite A2'; cbn. repeat split.
  f_equal. apply move_keeps_identity.
Qed.

(** C1 (evaluation at the head-on frame): 39 frames after the start the
    game is running with both cycles alive; the 40th frame moves both onto
    (400,300), where each of them, tested against the other's full trail,
    reports a collision.  [update] ends the game there with winner
    "Player 2" and the second cycle still alive, not with "Draw". *)
Theorem head_on_frame_names_player2 :
  let g := Game.run Game.init (repeat Game.Tick 39) in
  let c1 := LightCycle.move (Game.cycle1 g) in
  let c2 := LightCycle.move (Game.cycle2 g) in
  Game.game_over g = false
  /\ LightCycle.alive (Game.cycle1 g) = true
  /\ LightCycle.alive (Game.cycle2 g) = true
  /\ (LightCycle.x c1, LightCycle.y c1) = (400, 300)
  /\ (LightCycle.x c2, LightCycle.y c2) = (400, 300)
  /\ fst (LightCycle.check_collision c1 (LightCycle.trail c2)) = true
  /\ fst (LightCycle.check_collision c2 (LightCycle.trail c1)) = true
  /\ Game.game_over (Game.update g) = true
  /\ Game.winner (Game.update g) = Some "Player 2"%string
  /\ LightCycle.alive (Game.cycle1 (Game.update g)) = false
  /\ LightCycle.alive (Game.cycle2 (Game.update g)) = true.
Proof. vm_compute. repeat split; reflexivity. Qed.

(** C5: an alive cycle whose position is outside the playfield is marked
    dead by [check_collision], which returns true whatever the two trails
    hold; so it is at x = 805.  In a frame of a running game where a cycle
    is alive and its move takes it outside, and the opponent is alive after
    the frame, the cycle is dead, the game is over and the winner is the
    opponent. *)
Theorem out_of_bounds_kills :
  (forall (c : LightCycle.t) (other_trail : Trail),
      LightCycle.alive c = true ->
      LightCycle.x c < 0 \/ LightCycle.x c > 800 \/
      LightCycle.y c < 0 \/ LightCycle.y c > 600 ->
      LightCycle.check_collision c other_trail =
      (true, (LightCycle.set_alive c false, other_trail)))
  /\ (forall (c : LightCycle.t) (other_trail : Trail),
         LightCycle.alive c = true ->
         LightCycle.x c = 805 ->
         LightCycle.check_collision c other_trail =
         (true, (LightCycle.set_alive c false, other_trail)))
  /\ (forall g : Game.t,
         Game.game_over g = false ->
         LightCycle.alive (Game.cycle1 g) = true ->
         LightCycle.out_of_bounds (LightCycle.move (Game.cycle1 g)) = true ->
         LightCycle.alive (Game.cycle2 (Game.update g)) = true ->
         LightCycle.alive (Game.cycle1 (Game.update g)) = false
         /\ Game.game_over (Game.update g) = true
         /\ Game.winner (Game.update g) =
            Some (LightCycle.player_name (Game.cycle2 g)))
  /\ (forall g : Game.t,
         Game.game_over g = false ->
         LightCycle.alive (Game.cycle2 g) = true ->
         LightCycle.out_of_bounds (LightCycle.move (Game.cycle2 g)) = true ->
         LightCycle.alive (Game.cycle1 (Game.update g)) = true ->
         LightCycle.alive (Game.cycle2 (Game.update g)) = false
         /\ Game.game_over (Game.update g) = true
         /\ Game.winner (Game.update g) =
            Some (LightCycle.player_name (Game.cycle1 g))).
Proof.
  assert (Hcycle : forall (c : LightCycle.t) (other_trail : Trail),
      LightCycle.alive c = true ->
      LightCycle.x c < 0 \/ LightCycle.x c > 800 \/
      LightCycle.y c < 0 \/ LightCycle.y c > 600 ->
      LightCycle.check_collision c other_trail =
      (true, (LightCycle.set_alive c false, other_trail))).
  { intros c t Ha Hout. apply out_of_bounds_spec in Hout.
    rewrite check_collision_eq, (collides_out_of_bounds c t Ha Hout).
    reflexivity. }
  split; [exact Hcycle | split; [| split]].
  - intros c t Ha Hx. apply Hcycle; [exact Ha | lia].
  - intros g H A1 Hout A2'. rewrite (update_running g H) in *.
    rewrite collides_out_of_bounds in * by (rewrite ?move_keeps_alive; assumption).
    cbn in *. rewrite A2'. cbn. repeat split.
    f_equal. apply move_keeps_identity.
  - intros g H A2 Hout A1'. rewrite (update_running g H) in *.
    destruct (collides (LightCycle.move (Game.cycle1 g)) _) eqn:E1;
      [cbn in A1'; discriminate A1' |].
    rewrite collides_out_of_bounds in * by (rewrite ?move_keeps_alive; assumption).
    cbn in *. rewrite A1'. cbn. repeat split.
    f_equal. apply move_keeps_identity.
Qed.

(** The first cycle driven up, then right along y = 200 until it stands at
    x = 800, the second kept out of its way: the next frame takes the first
    to x = 805, where it dies and "Player 2" wins. *)
Lemma out_of_bounds_kills_witness :
  let g := Game.run Game.init
             ([Game.KeyDown K_w; Game.KeyDown K_DOWN] ++ repeat Game.Tick 20
              ++ [Game.KeyDown K_d; Game.KeyDown K_LEFT] ++ repeat Game.Tick 100
              ++ [Game.KeyDown K_UP] ++ repeat Game.Tick 20) in
  LightCycle.x (Game.cycle1 g) = 800
  /\ LightCycle.x (LightCycle.move (Game.cycle1 g)) = 805
  /\ LightCycle.alive (Game.cycle1 (Game.update g)) = false
  /\ Game.game_over (Game.update g) = true
  /\ Game.winner (Game.update g) = Some "Player 2"%string.
Proof.
  intros g.
  assert (H : Game.game_over g = false) by (vm_compute; reflexivity).
  assert (A1 : LightCycle.alive (Game.cycle1 g) = true)
    by (vm_compute; reflexivity).
  assert (B : LightCycle.out_of_bounds (LightCycle.move (Game.cycle1 g)) = true)
    by (vm_compute; reflexivity).
  assert (A2 : LightCycle.alive (Game.cycle2 (Game.update g)) = true)
    by (vm_compute; reflexivity).
  assert (N : LightCycle.player_name (Game.cycle2 g) = "Player 2"%string)
    by (vm_compute; reflexivity).
  assert (X : LightCycle.x (Game.cycle1 g) = 800) by (vm_compute; reflexivity).
  assert (X' : LightCycle.x (LightCycle.move (Game.cycle1 g)) = 805)
    by (vm_compute; reflexivity).
  pose proof out_of_bounds_kills as (_ & _ & K & _).
  destruct (K g H A1 B A2) as (D & O & W).
  rewrite N in W.
  exact (conj X (conj X' (conj D (conj O W)))).
Defined.

(** C6: on a finished game [update] changes nothing, however often it is
    called: both cycles (position, direction, trail, alive flag and the
    rest), the finished flag and the winner are as before. *)
Theorem update_finished_is_identity (g : Game.t) (n : nat) :
  Game.game_over g = true ->
  Nat.iter n Game.update g = g
  /\ Game.cycle1 (Nat.iter n Game.update g) = Game.cycle1 g
  /\ Game.cycle2 (Nat.iter n Game.update g) = Game.cycle2 g
  /\ Game.game_over (Nat.iter n Game.update g) = true
  /\ Game.winner (Nat.iter n Game.update g) = Game.winner g.
Proof.
  intros H.
  assert (E : Nat.iter n Game.update g = g).
  { induction n as [| n IH]; [reflexivity |].
    cbn [Nat.iter nat_rect]. change (Game.update (Nat.iter n Game.update g) = g).
    rewrite IH. exact (update_finished g H). }
  rewrite E. auto.
Qed.

(** Three more frames after the head-on frame that ended the game. *)
Lemma update_finished_is_identity_witness :
  let g := Game.run Game.init (repeat Game.Tick 40) in
  Game.game_over g = true /\ Nat.iter 3 Game.update g = g.
Proof.
  intros g.
  assert (H : Game.game_over g = true) by (vm_compute; reflexivity).
  split; [exact H | exact (proj1 (update_finished_is_identity g 3 H))].
Defined.

(** ** Input handling *)

Lemma turned_dead (c : LightCycle.t) (key : Key) :
  LightCycle.alive c = false -> turned c key = c.
Proof.
  intros H; unfold turned.
  destruct (lookup key _); [rewrite H |]; reflexivity.
Qed.

Lemma turned_frame (c : LightCycle.t) (key : Key) :
  turned c key = LightCycle.set_direction c (LightCycle.direction (turned c key)).
Proof.
  unfold turned.
  destruct (lookup key _) as [d |]; [destruct (LightCycle.alive c) |];
    try apply change_direction_frame;
    unfold LightCycle.set_direction; now rewrite eta.
Qed.

Lemma handle_keydown_eq (g : Game.t) (key : Key) :
  Game.handle_keydown g key =
  if Key_eqb key K_SPACE && Game.game_over g then Game.init
  else Game.mk (Game.player1_controls g) (Game.player2_controls g)
               (turned (Game.cycle1 g) key) (turned (Game.cycle2 g) key)
               (Game.game_over g) (Game.winner g).
Proof.
  unfold Game.handle_keydown, turned.
  destruct g as [p1 p2 c1 c2 over w]; cbn.
  destruct (lookup key (LightCycle.key_controls c1)) as [d1 |];
    [destruct (LightCycle.alive c1) |];
    (cbn; destruct (lookup key (LightCycle.key_controls c2)) as [d2 |];
     [destruct (LightCycle.alive c2) |]); reflexivity.
Qed.

Lemma handle_mouse_input_eq (g : Game.t) (pos : Z * Z) :
  Game.handle_mouse_input g true pos =
  if Game.in_button pos && Game.game_over g then Game.init else g.
Proof.
  unfold Game.handle_mouse_input, Game.in_button. cbn [andb].
  destruct (Game.game_over g); [| now rewrite andb_false_r].
  rewrite andb_true_r. reflexivity.
Qed.

Lemma step_eq (g : Game.t) (i : Game.Input) :
  Game.step g i =
  if Game.restart_request i && Game.game_over g then Game.init
  else match i with
       | Game.Tick => Game.update g
       | Game.KeyDown key =>
           Game.mk (Game.player1_controls g) (Game.player2_controls g)
                   (turned (Game.cycle1 g) key) (turned (Game.cycle2 g) key)
                   (Game.game_over g) (Game.winner g)
       | Game.Click _ => g
       end.
Proof.
  destruct i as [| key | pos]; cbn [Game.step Game.restart_request].
  - reflexivity.
  - apply handle_keydown_eq.
  - apply handle_mouse_input_eq.
Qed.

(** The event loop of [handle_keyboard_input]: key presses are handled in
    order, other events are skipped, and a QUIT ends the process. *)
Lemma handle_keyboard_input_keys (g : Game.t) (keys : list Key) :
  Game.handle_keyboard_input g (map KEYDOWN keys) =
  Some (Game.run g (map Game.KeyDown keys)).
Proof.
  revert g. induction keys as [| key keys IH]; intros g; cbn.
  - reflexivity.
  - apply IH.
Qed.

Lemma handle_keyboard_input_quit (g : Game.t) (events : list Event) :
  Game.handle_keyboard_input g (QUIT :: events) = None.
Proof. reflexivity. Qed.

Lemma run_snoc (g : Game.t) (inputs : list Game.Input) (i : Game.Input) :
  Game.run g (inputs ++ [i]) = Game.step (Game.run g inputs) i.
Proof. unfold Game.run. now rewrite fold_left_app. Qed.

(** ** The invariant of reachable games *)

Lemma inv_init : Inv Game.init.
Proof.
  constructor; cbn; try reflexivity; try discriminate.
  apply Running; reflexivity.
Qed.

Lemma move_trail_nonempty (c : LightCycle.t) :
  LightCycle.trail c <> [] -> LightCycle.trail (LightCycle.move c) <> [].
Proof.
  intros H. destruct (LightCycle.alive c) eqn:A.
  - rewrite (move_alive c A); cbn. intros E.
    apply app_eq_nil in E as [E _]. contradiction.
  - now rewrite (move_dead c A).
Qed.

Lemma inv_update (g : Game.t) : Inv g -> Inv (Game.update g).
Proof.
  intros I. destruct (Game.game_over g) eqn:H.
  - now rewrite (update_finished g H).
  - destruct (inv_outcome g I) as [_ W A1 A2 | H' | H']; try congruence.
    pose proof (move_keeps_identity (Game.cycle1 g)) as [N1 [K1 _]].
    pose proof (move_keeps_identity (Game.cycle2 g)) as [N2 [K2 _]].
    pose proof (move_trail_nonempty _ (inv_trail1 g I)) as T1.
    pose proof (move_trail_nonempty _ (inv_trail2 g I)) as T2.
    pose proof (move_keeps_alive (Game.cycle1 g)) as M1.
    pose proof (move_keeps_alive (Game.cycle2 g)) as M2.
    pose proof (move_keeps_speed (Game.cycle1 g)) as S1.
    pose proof (move_keeps_speed (Game.cycle2 g)) as S2.
    destruct I as [_ _ C1 C2 P1 P2 V1 V2 _].
    rewrite (update_running g H).
    destruct (collides (LightCycle.move (Game.cycle1 g)) _);
      [| destruct (collides (LightCycle.move (Game.cycle2 g)) _)];
      constructor; cbn; try congruence.
    + apply SecondWins; cbn; try congruence.
      rewrite M2, A2; cbn. congruence.
    + apply FirstWins; cbn; try congruence.
      rewrite M1, A1; cbn. congruence.
    + apply Running; cbn; congruence.
Qed.

Lemma turned_keeps (c : LightCycle.t) (key : Key) :
  LightCycle.trail (turned c key) = LightCycle.trail c
  /\ LightCycle.key_controls (turned c key) = LightCycle.key_controls c
  /\ LightCycle.player_name (turned c key) = LightCycle.player_name c
  /\ LightCycle.speed (turned c key) = LightCycle.speed c
  /\ LightCycle.alive (turned c key) = LightCycle.alive c
  /\ LightCycle.x (turned c key) = LightCycle.x c
  /\ LightCycle.y (turned c key) = LightCycle.y c.
Proof. rewrite turned_frame; cbn; auto 10. Qed.

Lemma inv_step (g : Game.t) (i : Game.Input) : Inv g -> Inv (Game.step g i).
Proof.
  intros I. rewrite step_eq.
  destruct (Game.restart_request i && Game.game_over g); [apply inv_init |].
  destruct i as [| key | pos]; [now apply inv_update | | exact I].
  destruct I as [T1 T2 C1 C2 P1 P2 V1 V2 O].
  destruct (turned_keeps (Game.cycle1 g) key) as (Et1 & Ec1 & En1 & Es1 & Ea1 & _).
  destruct (turned_keeps (Game.cycle2 g) key) as (Et2 & Ec2 & En2 & Es2 & Ea2 & _).
  constructor; cbn [Game.cycle1 Game.cycle2]; try congruence.
  destruct O as [H W A1 A2 | H W A1 A2 | H W A1 A2];
    [apply Running | apply SecondWins | apply FirstWins];
    cbn [Game.cycle1 Game.cycle2 Game.game_over Game.winner]; congruence.
Qed.

Lemma inv_run (inputs : list Game.Input) : Inv (Game.run Game.init inputs).
Proof.
  induction inputs as [| i inputs IH] using rev_ind.
  - exact inv_init.
  - rewrite run_snoc. now apply inv_step.
Qed.

(** No game the driver can bring about has the winner "Draw": a frame asks
    the second cycle only when the first reported nothing, so at most one
    cycle dies in it. *)
Lemma draw_unreachable (inputs : list Game.Input) :
  Game.winner (Game.run Game.init inputs) = None
  \/ Game.winner (Game.run Game.init inputs) = Some "Player 1"%string
  \/ Game.winner (Game.run Game.init inputs) = Some "Player 2"%string.
Proof. destruct (inv_outcome _ (inv_run inputs)); auto. Qed.

(** ** Restart *)

(** One frame into a running game the space bar and a click inside the
    restart button both leave the game as it is, with the first cycle at
    (205,300) on a trail of two points. *)
Lemma restart_ignored_while_running :
  let g := Game.update Game.init in
  Game.game_over g = false
  /\ Game.handle_keydown g K_SPACE = g
  /\ Game.handle_mouse_input g true (400, 425) = g
  /\ LightCycle.x (Game.cycle1 (Game.handle_keydown g K_SPACE)) = 205
  /\ List.length (LightCycle.trail (Game.cycle1 (Game.handle_keydown g K_SPACE))) = 2%nat
  /\ LightCycle.x (Game.cycle1 Game.init) = 200
  /\ List.length (LightCycle.trail (Game.cycle1 Game.init)) = 1%nat.
Proof. vm_compute. repeat split; reflexivity. Qed.

Lemma game_eta (g : Game.t) :
  Game.mk (Game.player1_controls g) (Game.player2_controls g) (Game.cycle1 g)
          (Game.cycle2 g) (Game.game_over g) (Game.winner g) = g.
Proof. destruct g; reflexivity. Qed.

Lemma reinit_init (g : Game.t) : Game.reinit g = Game.init.
Proof. reflexivity. Qed.

(** C7: restart, the call [self.__init__()], gives exactly the initial
    configuration from every game state, whatever went before: the first
    cycle at (200,300) heading RIGHT and the second at (600,300) heading
    LEFT, each alive with a trail of length 1 holding only its starting
    position, the game running (finished false) and the winner unset.
    No attribute of the state it is run on survives; and this is what the
    handlers run when they restart. *)
Theorem restart_gives_initial_configuration (g : Game.t) :
  let g' := Game.reinit g in
  (LightCycle.x (Game.cycle1 g'), LightCycle.y (Game.cycle1 g')) = (200, 300)
  /\ LightCycle.direction (Game.cycle1 g') = RIGHT
  /\ LightCycle.alive (Game.cycle1 g') = true
  /\ LightCycle.trail (Game.cycle1 g') = [(200, 300)]
  /\ List.length (LightCycle.trail (Game.cycle1 g')) = 1%nat
  /\ (LightCycle.x (Game.cycle2 g'), LightCycle.y (Game.cycle2 g')) = (600, 300)
  /\ LightCycle.direction (Game.cycle2 g') = LEFT
  /\ LightCycle.alive (Game.cycle2 g') = true
  /\ LightCycle.trail (Game.cycle2 g') = [(600, 300)]
  /\ List.length (LightCycle.trail (Game.cycle2 g')) = 1%nat
  /\ Game.game_over g' = false
  /\ Game.winner g' = None
  /\ g' = Game.init
  /\ (forall g0 : Game.t, Game.reinit g0 = g')
  /\ (forall i : Game.Input,
         Game.game_over g = true -> Game.restart_request i = true ->
         Game.step g i = g').
Proof.
  intros g'; subst g'. rewrite reinit_init.
  repeat match goal with |- _ /\ _ => split end; try reflexivity.
  intros i H R. rewrite step_eq, H, R. reflexivity.
Qed.

(** X16: the program restarts on request only once the game is over.  In
    every finished game, whatever led to it, a restart request (the space
    bar, or a left click inside the button) gives exactly the initial
    configuration: first cycle at (200,300) heading RIGHT, second at
    (600,300) heading LEFT, both alive on a trail holding only the starting
    position, the game running and no winner.  In a running game the
    driver can bring about, a restart request changes nothing. *)
Theorem restart_only_when_finished :
  (forall (g : Game.t) (i : Game.Input),
      Game.game_over g = true -> Game.restart_request i = true ->
      Game.step g i = Game.init)
  /\ (forall (inputs : list Game.Input) (i : Game.Input),
         Game.game_over (Game.run Game.init inputs) = false ->
         Game.restart_request i = true ->
         Game.step (Game.run Game.init inputs) i = Game.run Game.init inputs)
  /\ (let c1 := Game.cycle1 Game.init in
      let c2 := Game.cycle2 Game.init in
      (LightCycle.x c1, LightCycle.y c1) = (200, 300)
      /\ LightCycle.direction c1 = RIGHT
      /\ LightCycle.alive c1 = true
      /\ LightCycle.trail c1 = [(200, 300)]
      /\ (LightCycle.x c2, LightCycle.y c2) = (600, 300)
      /\ LightCycle.direction c2 = LEFT
      /\ LightCycle.alive c2 = true
      /\ LightCycle.trail c2 = [(600, 300)]
      /\ Game.game_over Game.init = false
      /\ Game.winner Game.init = None).
Proof.
  split; [| split].
  - intros g i H R. rewrite step_eq, H, R. reflexivity.
  - intros inputs i H R. rewrite step_eq, H, R. cbn [andb].
    destruct i as [| key | pos]; [discriminate R | | reflexivity].
    cbn in R. destruct key; try discriminate R.
    pose proof (inv_run inputs) as I.
    unfold turned.
    rewrite (inv_controls1 _ I), (inv_controls2 _ I). cbn.
    rewrite <- H. apply game_eta.
  - cbn. repeat split; reflexivity.
Qed.

(** ** Turning once the game is over *)

(** C9: in a finished game a key press other than the space bar still
    reaches the cycle it belongs to.  An alive cycle takes the requested
    direction unless it is the opposite of its own; a dead cycle is left
    exactly as it is; the finished flag and the winner stay.  The cycles
    after the key press are those the same press gives with the finished
    flag off. *)
Theorem turn_after_finish (g : Game.t) (key : Key) (d : Direction) :
  Game.game_over g = true ->
  Key_eqb key K_SPACE = false ->
  let g' := Game.handle_keydown g key in
  (lookup key (LightCycle.key_controls (Game.cycle1 g)) = Some d ->
   LightCycle.alive (Game.cycle1 g) = true ->
   ~ Dir.opposite d (LightCycle.direction (Game.cycle1 g)) ->
   LightCycle.direction (Game.cycle1 g') = d)
  /\ (lookup key (LightCycle.key_controls (Game.cycle2 g)) = Some d ->
      LightCycle.alive (Game.cycle2 g) = true ->
      ~ Dir.opposite d (LightCycle.direction (Game.cycle2 g)) ->
      LightCycle.direction (Game.cycle2 g') = d)
  /\ (LightCycle.alive (Game.cycle1 g) = false -> Game.cycle1 g' = Game.cycle1 g)
  /\ (LightCycle.alive (Game.cycle2 g) = false -> Game.cycle2 g' = Game.cycle2 g)
  /\ Game.game_over g' = true
  /\ Game.winner g' = Game.winner g
  /\ Game.cycle1 g' = Game.cycle1 (Game.handle_keydown (Game.set_game_over g false) key)
  /\ Game.cycle2 g' = Game.cycle2 (Game.handle_keydown (Game.set_game_over g false) key).
Proof.
  intros H K g'; subst g'. rewrite !handle_keydown_eq, K.
  cbn [andb Game.cycle1 Game.cycle2 Game.game_over Game.winner
       Game.set_game_over].
  repeat match goal with |- _ /\ _ => split end;
    try reflexivity; try assumption.
  - intros L A N. unfold turned. rewrite L, A.
    now apply change_direction_accepts.
  - intros L A N. unfold turned. rewrite L, A.
    now apply change_direction_accepts.
  - apply turned_dead.
  - apply turned_dead.
Qed.

(** After the head-on frame the second cycle survives heading LEFT: the up
    arrow turns it UP although the game is over, and the first player's
    [w] leaves the dead first cycle alone. *)
Lemma turn_after_finish_witness :
  let g := Game.run Game.init (repeat Game.Tick 40) in
  Game.game_over g = true
  /\ LightCycle.direction (Game.cycle2 g) = LEFT
  /\ LightCycle.direction (Game.cycle2 (Game.handle_keydown g K_UP)) = UP
  /\ Game.cycle1 (Game.handle_keydown g K_w) = Game.cycle1 g.
Proof.
  intros g.
  assert (H : Game.game_over g = true) by (vm_compute; reflexivity).
  assert (A2 : LightCycle.alive (Game.cycle2 g) = true)
    by (vm_compute; reflexivity).
  assert (A1 : LightCycle.alive (Game.cycle1 g) = false)
    by (vm_compute; reflexivity).
  assert (D : LightCycle.direction (Game.cycle2 g) = LEFT)
    by (vm_compute; reflexivity).
  assert (L : lookup K_UP (LightCycle.key_controls (Game.cycle2 g)) = Some UP)
    by (vm_compute; reflexivity).
  assert (N : ~ Dir.opposite UP (LightCycle.direction (Game.cycle2 g)))
    by (rewrite D; intros E; discriminate E).
  pose proof (turn_after_finish g K_UP UP H eq_refl) as T2.
  pose proof (turn_after_finish g K_w UP H eq_refl) as T1.
  cbv zeta in T1, T2.
  destruct T2 as (_ & T2 & _). destruct T1 as (_ & _ & T1 & _).
  exact (conj H (conj D (conj (T2 L A2 N) (T1 A1)))).
Defined.

(** ** What every reachable game satisfies *)

Lemma outcome_over_iff_winner (g : Game.t) :
  Outcome g -> (Game.game_over g = true <-> Game.winner g <> None).
Proof.
  intros [H W _ _ | H W _ _ | H W _ _]; rewrite H, W;
    split; congruence.
Qed.

Lemma outcome_running_alive (g : Game.t) :
  Outcome g -> Game.game_over g = false ->
  LightCycle.alive (Game.cycle1 g) = true
  /\ LightCycle.alive (Game.cycle2 g) = true.
Proof. intros [H W A1 A2 | H | H] E; [auto | congruence | congruence]. Qed.

Lemma outcome_dead_over (g : Game.t) :
  Outcome g ->
  LightCycle.alive (Game.cycle1 g) = false
  \/ LightCycle.alive (Game.cycle2 g) = false ->
  Game.game_over g = true.
Proof.
  intros [H W A1 A2 | H | H] [D | D]; congruence.
Qed.

(** A step that is not a restart keeps a finished game finished, with its
    winner, and leaves a dead cycle exactly as it is. *)
Lemma step_frame (g : Game.t) (i : Game.Input) :
  Game.restart_request i && Game.game_over g = false ->
  (Game.game_over g = true ->
   Game.game_over (Game.step g i) = true
   /\ Game.winner (Game.step g i) = Game.winner g)
  /\ (Game.game_over g = true ->
      LightCycle.alive (Game.cycle1 g) = false ->
      Game.cycle1 (Game.step g i) = Game.cycle1 g)
  /\ (Game.game_over g = true ->
      LightCycle.alive (Game.cycle2 g) = false ->
      Game.cycle2 (Game.step g i) = Game.cycle2 g)
  /\ (i <> Game.Tick ->
      Game.game_over (Game.step g i) = Game.game_over g
      /\ Game.winner (Game.step g i) = Game.winner g).
Proof.
  intros R. rewrite step_eq, R.
  destruct i as [| key | pos].
  - split; [| split; [| split]];
      try (intros H; rewrite (update_finished g H); auto).
    intros N; contradiction.
  - cbn. split; [| split; [| split]]; auto using turned_dead.
  - auto.
Qed.

(** C8: in every game reached from the initial configuration by frames,
    key presses and clicks, both trails hold at least one point; the game
    is over exactly when a winner is set, and while it is not over both
    cycles are alive.  A restart (a restart request in a finished game)
    gives the initial configuration.  Any other input keeps a finished game
    finished and its winner as set; it sets a winner only in a frame of a
    running game, the frame in which a cycle dies, and every such frame
    sets one; and it leaves a dead cycle exactly as it is, dead.  On a dead
    cycle [move] and [change_direction] change nothing. *)
Theorem reachable_invariants (inputs : list Game.Input) (i : Game.Input) :
  let g := Game.run Game.init inputs in
  let g' := Game.step g i in
  (1 <= List.length (LightCycle.trail (Game.cycle1 g)))%nat
  /\ (1 <= List.length (LightCycle.trail (Game.cycle2 g)))%nat
  /\ (Game.game_over g = true <-> Game.winner g <> None)
  /\ (Game.game_over g = false ->
      LightCycle.alive (Game.cycle1 g) = true
      /\ LightCycle.alive (Game.cycle2 g) = true)
  /\ (Game.restart_request i && Game.game_over g = true -> g' = Game.init)
  /\ (Game.restart_request i && Game.game_over g = false ->
      (Game.game_over g = true ->
       Game.game_over g' = true /\ Game.winner g' = Game.winner g)
      /\ (Game.winner g = None -> Game.winner g' <> None ->
          i = Game.Tick
          /\ (LightCycle.alive (Game.cycle1 g') = false
              \/ LightCycle.alive (Game.cycle2 g') = false))
      /\ (Game.game_over g = false ->
          LightCycle.alive (Game.cycle1 g') = false
          \/ LightCycle.alive (Game.cycle2 g') = false ->
          Game.game_over g' = true /\ Game.winner g' <> None)
      /\ (LightCycle.alive (Game.cycle1 g) = false ->
          Game.cycle1 g' = Game.cycle1 g)
      /\ (LightCycle.alive (Game.cycle2 g) = false ->
          Game.cycle2 g' = Game.cycle2 g))
  /\ (forall (c : LightCycle.t) (d : Direction),
         LightCycle.alive c = false ->
         LightCycle.move c = c /\ LightCycle.change_direction c d = c).
Proof.
  intros g g'; subst g'.
  pose proof (inv_run inputs) as I.
  pose proof (inv_run (inputs ++ [i])) as I'.
  rewrite run_snoc in I'. fold g in I, I'.
  clearbody g.
  pose proof (inv_outcome g I) as O.
  pose proof (inv_outcome _ I') as O'.
  pose proof (inv_trail1 g I) as T1.
  pose proof (inv_trail2 g I) as T2.
  split; [| split; [| split; [| split; [| split; [| split]]]]].
  - destruct (LightCycle.trail (Game.cycle1 g)); [contradiction | cbn; lia].
  - destruct (LightCycle.trail (Game.cycle2 g)); [contradiction | cbn; lia].
  - now apply outcome_over_iff_winner.
  - now apply outcome_running_alive.
  - intros R. rewrite step_eq, R. reflexivity.
  - intros R. destruct (step_frame g i R) as (F1 & F2 & F3 & F4).
    split; [exact F1 | split; [| split; [| split]]].
    + intros W W'. destruct i as [| key | pos].
      * split; [reflexivity |].
        destruct O' as [_ W0 _ _ | _ _ D _ | _ _ _ D]; [congruence | now left | now right].
      * destruct F4 as [_ F4]; [discriminate | congruence].
      * destruct F4 as [_ F4]; [discriminate | congruence].
    + intros _ D. pose proof (outcome_dead_over _ O' D) as H'.
      split; [exact H' | now apply (outcome_over_iff_winner _ O')].
    + intros D. apply F2; [| exact D]. apply (outcome_dead_over g O). now left.
    + intros D. apply F3; [| exact D]. apply (outcome_dead_over g O). now right.
  - intros c d D. split; [now apply move_dead | now apply change_direction_dead].
Qed.

(** ** Movement *)

(** C3: an alive cycle's [move] puts the position at the old position plus
    the direction vector times the speed, and appends exactly that new
    position to the trail, which grows by one and ends in the position; a
    dead cycle's [move] changes nothing.  The speed is 5 in every cycle the
    constructor builds, no [move] alters it, and it is 5 for both cycles of
    every game the driver can bring about.  A cycle built at (200,300)
    heading RIGHT is at (205,300) after one [move], with trail
    [(200,300); (205,300)]. *)
Theorem move_steps_and_records :
  (forall c : LightCycle.t,
      LightCycle.alive c = true ->
      let c' := LightCycle.move c in
      LightCycle.x c' =
        LightCycle.x c + fst (Dir.value (LightCycle.direction c)) * LightCycle.speed c
      /\ LightCycle.y c' =
        LightCycle.y c + snd (Dir.value (LightCycle.direction c)) * LightCycle.speed c
      /\ LightCycle.trail c' =
           LightCycle.trail c ++ [(LightCycle.x c', LightCycle.y c')]
      /\ last (LightCycle.trail c') (0, 0) = (LightCycle.x c', LightCycle.y c')
      /\ List.length (LightCycle.trail c') = S (List.length (LightCycle.trail c))
      /\ c' = LightCycle.set_trail
                (LightCycle.set_position c (LightCycle.x c') (LightCycle.y c'))
                (LightCycle.trail c'))
  /\ (forall c : LightCycle.t,
         LightCycle.alive c = false -> LightCycle.move c = c)
  /\ (forall x0 y0 col d kc name,
         LightCycle.speed (LightCycle.init x0 y0 col d kc name) = 5)
  /\ (forall c : LightCycle.t,
         LightCycle.speed (LightCycle.move c) = LightCycle.speed c)
  /\ (forall inputs : list Game.Input,
         LightCycle.speed (Game.cycle1 (Game.run Game.init inputs)) = 5
         /\ LightCycle.speed (Game.cycle2 (Game.run Game.init inputs)) = 5)
  /\ (forall col kc name,
         let c' := LightCycle.move (LightCycle.init 200 300 col RIGHT kc name) in
         LightCycle.x c' = 205 /\ LightCycle.y c' = 300
         /\ LightCycle.trail c' = [(200, 300); (205, 300)]).
Proof.
  split; [| split; [| split; [| split; [| split]]]].
  - intros c H c'; subst c'. rewrite (move_alive c H); cbn.
    repeat split.
    + apply last_last.
    + rewrite length_app; cbn; lia.
    + unfold LightCycle.set_trail, LightCycle.set_position; cbn.
      rewrite H; reflexivity.
  - intros c H; exact (move_dead c H).
  - reflexivity.
  - intros c; apply move_keeps_speed.
  - intros inputs. pose proof (inv_run inputs) as I.
    split; [apply (inv_speed1 _ I) | apply (inv_speed2 _ I)].
  - intros col kc name; cbn; auto.
Qed.

(** * Further properties of the program *)

(** ** Points and trails *)

Lemma touches_close (c : LightCycle.t) (p : Point) :
  touches c p <-> close (position c) p.
Proof. reflexivity. Qed.

Lemma close_refl (p : Point) : close p p.
Proof. unfold close. rewrite !Z.sub_diag. cbn. lia. Qed.

Lemma close_sym (p q : Point) : close p q -> close q p.
Proof. unfold close. lia. Qed.

(** On the grid the box holds one grid point only. *)
Lemma close_on_grid (p q : Point) :
  on_grid p -> on_grid q -> close p q -> p = q.
Proof.
  destruct p as [a b], q as [c d]. unfold on_grid, close; cbn [fst snd].
  intros [Ha Hb] [Hc Hd] [H1 H2].
  pose proof (Z.div_mod a 5). pose proof (Z.div_mod b 5).
  pose proof (Z.div_mod c 5). pose proof (Z.div_mod d 5).
  f_equal; lia.
Qed.

Lemma last_Forall {A : Type} (P : A -> Prop) (l : list A) (d : A) :
  Forall P l -> P d -> P (last l d).
Proof.
  intros H Hd. induction H as [| a l Ha Hl IH]; [exact Hd |].
  destruct l; [exact Ha | exact IH].
Qed.

Lemma combine_tl_snoc {A : Type} (l : list A) (q d : A) :
  l <> [] ->
  combine (l ++ [q]) (tl (l ++ [q])) = combine l (tl l) ++ [(last l d, q)].
Proof.
  induction l as [| a l IH]; [intros H; contradiction |].
  intros _. destruct l as [| b l]; [reflexivity |].
  change (combine ((a :: b :: l) ++ [q]) (tl ((a :: b :: l) ++ [q])))
    with ((a, b) :: combine ((b :: l) ++ [q]) (tl ((b :: l) ++ [q]))).
  rewrite IH by discriminate. reflexivity.
Qed.

Lemma lattice_path_snoc (l : Trail) (q : Point) :
  lattice_path l -> one_step (last l (0, 0)) q -> lattice_path (l ++ [q]).
Proof.
  intros H S. destruct l as [| a l]; [constructor |].
  unfold lattice_path.
  rewrite (combine_tl_snoc (a :: l) q (0, 0)) by discriminate.
  apply Forall_app. split; [exact H | constructor; [exact S | constructor]].
Qed.

Lemma on_grid_step (p q : Point) : on_grid p -> one_step p q -> on_grid q.
Proof.
  intros [Hx Hy] [d ->]. unfold on_grid; cbn [fst snd].
  split; rewrite Z.mod_add by lia; assumption.
Qed.

(** ** The trail of a cycle under its methods *)

Lemma move_position (c : LightCycle.t) :
  LightCycle.alive c = true -> LightCycle.speed c = 5 ->
  one_step (position c) (position (LightCycle.move c))
  /\ LightCycle.trail (LightCycle.move c) =
     LightCycle.trail c ++ [position (LightCycle.move c)].
Proof.
  intros A S. rewrite (move_alive c A). unfold position; cbn. rewrite S.
  split; [| reflexivity]. exists (LightCycle.direction c). reflexivity.
Qed.

Lemma geometry_move (c : LightCycle.t) :
  LightCycle.speed c = 5 -> CycleGeometry c ->
  CycleGeometry (LightCycle.move c).
Proof.
  intros S [L G P]. destruct (LightCycle.alive c) eqn:A.
  - destruct (move_position c A S) as [St T].
    constructor; rewrite T.
    + apply last_last.
    + apply Forall_app. split; [exact G |].
      constructor; [| constructor].
      apply (on_grid_step (position c)); [| exact St].
      rewrite <- L. apply last_Forall; [exact G |]. split; reflexivity.
    + apply lattice_path_snoc; [exact P |]. now rewrite L.
  - rewrite (move_dead c A). now constructor.
Qed.

Lemma geometry_same_trail (c c' : LightCycle.t) :
  LightCycle.trail c' = LightCycle.trail c -> position c' = position c ->
  CycleGeometry c -> CycleGeometry c'.
Proof. intros T E [L G P]. constructor; rewrite T, ?E; assumption. Qed.

(** What a cycle that reports nothing tells about its position. *)
Lemma collides_false (c : LightCycle.t) (other_trail : Trail) :
  LightCycle.alive c = true -> collides c other_trail = false ->
  in_field (position c)
  /\ (forall q, In q other_trail -> ~ close (position c) q)
  /\ (forall (i : nat) (q : Point),
         nth_error (LightCycle.trail c) i = Some q ->
         (i + 10 < List.length (LightCycle.trail c))%nat ->
         ~ close (position c) q).
Proof.
  intros A H. unfold collides in H. rewrite A in H. cbn [andb] in H.
  apply orb_false_iff in H as [B Sc].
  assert (N : forall q,
             In q (other_trail ++ slice_upto (LightCycle.trail c) (-10)) ->
             ~ close (position c) q).
  { intros q Hq Hc.
    assert (E : Exists (touches c) (other_trail ++ slice_upto (LightCycle.trail c) (-10)))
      by (apply Exists_exists; exists q; split; [exact Hq | exact Hc]).
    apply scan_spec in E. congruence. }
  split; [| split].
  - unfold in_field, position; cbn [fst snd].
    destruct (Z_lt_dec (LightCycle.x c) 0) as [H1 |];
      [| destruct (Z_gt_dec (LightCycle.x c) 800) as [H2 |];
         [| destruct (Z_lt_dec (LightCycle.y c) 0) as [H3 |];
            [| destruct (Z_gt_dec (LightCycle.y c) 600) as [H4 |]; [| lia]]]];
      exfalso;
      assert (O : LightCycle.out_of_bounds c = true)
        by (apply out_of_bounds_spec; tauto); congruence.
  - intros q Hq. apply N, in_or_app. now left.
  - intros i q Hi Hlen. apply N, in_or_app. right.
    rewrite slice_upto_grace.
    apply nth_error_In with (n := i).
    rewrite nth_error_firstn.
    destruct (Nat.ltb_spec i (List.length (LightCycle.trail c)
                              - Nat.min 10 (List.length (LightCycle.trail c))));
      [exact Hi | lia].
Qed.

(** ** The geometry of reachable games *)

Lemma geometry_init : Geometry Game.init.
Proof.
  constructor; try (intros _); cbn.
  - constructor; cbn; [reflexivity | | constructor].
    constructor; [split; reflexivity | constructor].
  - constructor; cbn; [reflexivity | | constructor].
    constructor; [split; reflexivity | constructor].
  - reflexivity.
  - constructor; [unfold in_field; cbn; lia | constructor].
  - constructor; [unfold in_field; cbn; lia | constructor].
  - intros i j p q Hi Hj Hij.
    destruct j as [| j]; [lia |]. destruct j; discriminate Hj.
  - intros i j p q Hi Hj Hij.
    destruct j as [| j]; [lia |]. destruct j; discriminate Hj.
  - intros p q [<- | []] [<- | []]. unfold close; cbn. lia.
Qed.

Lemma separated_snoc (l : Trail) (q : Point) :
  separated l ->
  (forall (i : nat) (p : Point),
      nth_error l i = Some p -> (i + 10 <= List.length l)%nat -> p <> q) ->
  separated (l ++ [q]).
Proof.
  intros Sep New i j p r Hi Hj Hij.
  assert (Hjl : (j < List.length (l ++ [q]))%nat)
    by (apply nth_error_Some; congruence).
  rewrite length_app in Hjl; cbn in Hjl.
  rewrite nth_error_app1 in Hi by lia.
  destruct (Nat.eq_dec j (List.length l)) as [-> | Hne].
  - rewrite nth_error_app2, Nat.sub_diag in Hj by lia.
    injection Hj as <-. now apply (New i).
  - rewrite nth_error_app1 in Hj by lia. now apply (Sep i j).
Qed.

Lemma set_alive_geometry (c : LightCycle.t) (b : bool) :
  CycleGeometry c -> CycleGeometry (LightCycle.set_alive c b).
Proof. apply geometry_same_trail; reflexivity. Qed.

Lemma move_trail_length (c : LightCycle.t) :
  LightCycle.alive c = true ->
  List.length (LightCycle.trail (LightCycle.move c)) =
  S (List.length (LightCycle.trail c)).
Proof.
  intros A. rewrite (move_alive c A); cbn. rewrite length_app; cbn. lia.
Qed.

Lemma geometry_update (g : Game.t) :
  Inv g -> Geometry g -> Geometry (Game.update g).
Proof.
  intros I G. destruct (Game.game_over g) eqn:H.
  - now rewrite (update_finished g H).
  - destruct (outcome_running_alive g (inv_outcome g I) H) as [A1 A2].
    pose proof (inv_speed1 g I) as S1. pose proof (inv_speed2 g I) as S2.
    pose proof (geometry_move _ S1 (geo_cycle1 g G)) as G1.
    pose proof (geometry_move _ S2 (geo_cycle2 g G)) as G2.
    pose proof (move_trail_length _ A1) as L1.
    pose proof (move_trail_length _ A2) as L2.
    pose proof (geo_length g G) as L.
    rewrite (update_running g H).
    destruct (collides (LightCycle.move (Game.cycle1 g)) _) eqn:E1;
      [| destruct (collides (LightCycle.move (Game.cycle2 g)) _) eqn:E2].
    + constructor; cbn; try discriminate;
        auto using set_alive_geometry; congruence.
    + constructor; cbn; try discriminate;
        auto using set_alive_geometry; congruence.
    + destruct (move_position _ A1 S1) as [_ T1].
      destruct (move_position _ A2 S2) as [_ T2].
      destruct (collides_false _ _ (eq_trans (move_keeps_alive _) A1) E1)
        as (F1 & O1 & Own1).
      destruct (collides_false _ _ (eq_trans (move_keeps_alive _) A2) E2)
        as (F2 & O2 & Own2).
      constructor; cbn; try (intros _); auto; try congruence.
      * rewrite T1. apply Forall_app. split; [now apply (geo_field1 g G) |].
        constructor; [exact F1 | constructor].
      * rewrite T2. apply Forall_app. split; [now apply (geo_field2 g G) |].
        constructor; [exact F2 | constructor].
      * rewrite T1. apply separated_snoc; [now apply (geo_separated1 g G) |].
        intros i p Hi Hlen Heq. apply (Own1 i p).
        -- rewrite T1, nth_error_app1; [exact Hi | lia].
        -- rewrite L1. lia.
        -- rewrite Heq. apply close_refl.
      * rewrite T2. apply separated_snoc; [now apply (geo_separated2 g G) |].
        intros i p Hi Hlen Heq. apply (Own2 i p).
        -- rewrite T2, nth_error_app1; [exact Hi | lia].
        -- rewrite L2. lia.
        -- rewrite Heq. apply close_refl.
      * intros p q Hp Hq. rewrite T1 in Hp.
        apply in_app_or in Hp as [Hp | [<- | []]].
        -- rewrite T2 in Hq. apply in_app_or in Hq as [Hq | [<- | []]].
           ++ now apply (geo_apart g G H).
           ++ intros C. apply (O2 p); [| now apply close_sym].
              rewrite T1. apply in_or_app. now left.
        -- now apply O1.
Qed.

Lemma geometry_step (g : Game.t) (i : Game.Input) :
  Inv g -> Geometry g -> Geometry (Game.step g i).
Proof.
  intros I G. rewrite step_eq.
  destruct (Game.restart_request i && Game.game_over g); [apply geometry_init |].
  destruct i as [| key | pos]; [now apply geometry_update | | exact G].
  destruct (turned_keeps (Game.cycle1 g) key) as (Et1 & _ & _ & _ & _ & Ex1 & Ey1).
  destruct (turned_keeps (Game.cycle2 g) key) as (Et2 & _ & _ & _ & _ & Ex2 & Ey2).
  destruct G as [G1 G2 L F1 F2 P1 P2 Ap].
  constructor; cbn [Game.cycle1 Game.cycle2 Game.game_over];
    rewrite ?Et1, ?Et2; try assumption.
  - apply (geometry_same_trail (Game.cycle1 g)); [exact Et1 | | exact G1].
    unfold position. now rewrite Ex1, Ey1.
  - apply (geometry_same_trail (Game.cycle2 g)); [exact Et2 | | exact G2].
    unfold position. now rewrite Ex2, Ey2.
Qed.

Lemma geometry_run (inputs : list Game.Input) :
  Geometry (Game.run Game.init inputs).
Proof.
  induction inputs as [| i inputs IH] using rev_ind.
  - exact geometry_init.
  - rewrite run_snoc. apply geometry_step; [apply inv_run | exact IH].
Qed.

(** X1: in every game the driver can bring about, each cycle stands on the
    last point of its trail, the two trails have the same length, and each
    trail entry is one step of length 5 along an axis away from the entry
    before it. *)
Theorem trail_follows_cycle (inputs : list Game.Input) :
  let g := Game.run Game.init inputs in
  last (LightCycle.trail (Game.cycle1 g)) (0, 0) =
    (LightCycle.x (Game.cycle1 g), LightCycle.y (Game.cycle1 g))
  /\ last (LightCycle.trail (Game.cycle2 g)) (0, 0) =
       (LightCycle.x (Game.cycle2 g), LightCycle.y (Game.cycle2 g))
  /\ List.length (LightCycle.trail (Game.cycle1 g)) =
     List.length (LightCycle.trail (Game.cycle2 g))
  /\ lattice_path (LightCycle.trail (Game.cycle1 g))
  /\ lattice_path (LightCycle.trail (Game.cycle2 g)).
Proof.
  intros g. destruct (geometry_run inputs) as [[L1 _ P1] [L2 _ P2] L _ _ _ _ _].
  fold g in L1, L2, L, P1, P2. auto.
Qed.

Lemma position_on_grid (c : LightCycle.t) :
  CycleGeometry c -> on_grid (position c).
Proof.
  intros [L G _]. rewrite <- L. apply last_Forall; [exact G |].
  split; reflexivity.
Qed.

(** X2: in every game the driver can bring about all coordinates are
    multiples of 5, so for each cycle and each point of either trail the
    proximity box of [check_collision] holds exactly when the cycle stands
    on that point. *)
Theorem collision_box_is_coincidence (inputs : list Game.Input) :
  let g := Game.run Game.init inputs in
  Forall on_grid (LightCycle.trail (Game.cycle1 g))
  /\ Forall on_grid (LightCycle.trail (Game.cycle2 g))
  /\ (forall p : Point,
         In p (LightCycle.trail (Game.cycle1 g) ++ LightCycle.trail (Game.cycle2 g)) ->
         (LightCycle.near (Game.cycle1 g) p = true <->
          (LightCycle.x (Game.cycle1 g), LightCycle.y (Game.cycle1 g)) = p)
         /\ (LightCycle.near (Game.cycle2 g) p = true <->
             (LightCycle.x (Game.cycle2 g), LightCycle.y (Game.cycle2 g)) = p)).
Proof.
  intros g. pose proof (geometry_run inputs) as G. fold g in G.
  pose proof (geo_grid _ (geo_cycle1 g G)) as G1.
  pose proof (geo_grid _ (geo_cycle2 g G)) as G2.
  split; [exact G1 | split; [exact G2 |]].
  intros p Hp.
  assert (Gp : on_grid p).
  { apply in_app_or in Hp as [Hp | Hp];
      [exact (proj1 (Forall_forall _ _) G1 p Hp)
      | exact (proj1 (Forall_forall _ _) G2 p Hp)]. }
  split; rewrite near_spec, touches_close; (split; [| intros <-; apply close_refl]).
  - apply close_on_grid; [apply position_on_grid, G | exact Gp].
  - apply close_on_grid; [apply position_on_grid, G | exact Gp].
Qed.

Lemma last_in {A : Type} (l : list A) (d : A) : l <> [] -> In (last l d) l.
Proof.
  induction l as [| a l IH]; [intros H; contradiction |].
  intros _. destruct l as [| b l]; [now left |].
  right. apply IH. discriminate.
Qed.

(** X3: while a game the driver can bring about is running, every point of
    both trails (the two positions included) is inside the playfield, no
    point of one trail is in the box of, let alone equal to, a point of the
    other, and no trail holds the same point at two entries ten or more
    apart. *)
Theorem running_trails_stay_apart (inputs : list Game.Input) :
  let g := Game.run Game.init inputs in
  Game.game_over g = false ->
  Forall in_field (LightCycle.trail (Game.cycle1 g))
  /\ Forall in_field (LightCycle.trail (Game.cycle2 g))
  /\ in_field (LightCycle.x (Game.cycle1 g), LightCycle.y (Game.cycle1 g))
  /\ in_field (LightCycle.x (Game.cycle2 g), LightCycle.y (Game.cycle2 g))
  /\ apart (LightCycle.trail (Game.cycle1 g)) (LightCycle.trail (Game.cycle2 g))
  /\ (forall p : Point,
         In p (LightCycle.trail (Game.cycle1 g)) ->
         ~ In p (LightCycle.trail (Game.cycle2 g)))
  /\ separated (LightCycle.trail (Game.cycle1 g))
  /\ separated (LightCycle.trail (Game.cycle2 g)).
Proof.
  intros g H. pose proof (geometry_run inputs) as G. fold g in G.
  pose proof (geo_field1 g G H) as F1. pose proof (geo_field2 g G H) as F2.
  pose proof (geo_last _ (geo_cycle1 g G)) as L1.
  pose proof (geo_last _ (geo_cycle2 g G)) as L2.
  pose proof (inv_run inputs) as I. fold g in I.
  repeat match goal with |- _ /\ _ => split end.
  - exact F1.
  - exact F2.
  - change (in_field (position (Game.cycle1 g))). rewrite <- L1.
    apply (proj1 (Forall_forall _ _) F1), last_in, (inv_trail1 g I).
  - change (in_field (position (Game.cycle2 g))). rewrite <- L2.
    apply (proj1 (Forall_forall _ _) F2), last_in, (inv_trail2 g I).
  - exact (geo_apart g G H).
  - intros p H1 H2. apply (geo_apart g G H p p H1 H2), close_refl.
  - exact (geo_separated1 g G H).
  - exact (geo_separated2 g G H).
Qed.

(** One frame into the game. *)
Lemma running_trails_stay_apart_witness :
  let g := Game.run Game.init [Game.Tick] in
  in_field (LightCycle.x (Game.cycle1 g), LightCycle.y (Game.cycle1 g))
  /\ apart (LightCycle.trail (Game.cycle1 g)) (LightCycle.trail (Game.cycle2 g)).
Proof.
  intros g.
  destruct (running_trails_stay_apart [Game.Tick] eq_refl)
    as (_ & _ & H1 & _ & H2 & _).
  exact (conj H1 H2).
Defined.

(** ** A round cannot go on for ever *)









Lemma update_trails (g : Game.t) :
  Game.game_over g = false ->
  LightCycle.trail (Game.cycle1 (Game.update g)) =
    LightCycle.trail (LightCycle.move (Game.cycle1 g))
  /\ LightCycle.trail (Game.cycle2 (Game.update g)) =
       LightCycle.trail (LightCycle.move (Game.cycle2 g)).
Proof.
  intros H. rewrite (update_running g H).
  destruct (collides _ _); [| destruct (collides _ _)]; cbn; auto.
Qed.




(** ** The end of a round *)

(** X5: a finished game the driver can bring about has exactly one dead
    cycle, and the winner is the name of the other one; the winner is never
    "Draw". *)
Theorem finished_game_has_one_survivor (inputs : list Game.Input) :
  let g := Game.run Game.init inputs in
  Game.game_over g = true ->
  (Game.winner g = Some "Player 1"%string
   /\ LightCycle.alive (Game.cycle1 g) = true
   /\ LightCycle.alive (Game.cycle2 g) = false
   /\ LightCycle.player_name (Game.cycle1 g) = "Player 1"%string)
  \/ (Game.winner g = Some "Player 2"%string
      /\ LightCycle.alive (Game.cycle1 g) = false
      /\ LightCycle.alive (Game.cycle2 g) = true
      /\ LightCycle.player_name (Game.cycle2 g) = "Player 2"%string).
Proof.
  intros g H. pose proof (inv_run inputs) as I. fold g in I.
  destruct (inv_outcome g I) as [H' | _ W A1 A2 | _ W A1 A2]; [congruence | |].
  - right. pose proof (inv_name2 g I). auto.
  - left. pose proof (inv_name1 g I). auto.
Qed.

(** The game that ran head-on for 40 frames. *)
Lemma finished_game_has_one_survivor_witness :
  let g := Game.run Game.init (repeat Game.Tick 40) in
  Game.game_over g = true
  /\ (LightCycle.alive (Game.cycle1 g) = negb (LightCycle.alive (Game.cycle2 g))).
Proof.
  intros g.
  assert (H : Game.game_over g = true) by (vm_compute; reflexivity).
  split; [exact H |].
  destruct (finished_game_has_one_survivor (repeat Game.Tick 40) H)
    as [(_ & A1 & A2 & _) | (_ & A1 & A2 & _)];
    fold g in A1, A2; rewrite A1, A2; reflexivity.
Defined.

(** X6: asking a cycle a second time, against the same trail, reports
    nothing and changes nothing: a collision is reported once. *)
Theorem check_collision_reports_once :
  forall (c : LightCycle.t) (other_trail : Trail),
    let first := LightCycle.check_collision c other_trail in
    LightCycle.check_collision (fst (snd first)) (snd (snd first)) =
    (false, snd first).
Proof.
  intros c t first; subst first.
  rewrite (check_collision_eq c t); cbn [fst snd].
  rewrite check_collision_eq.
  destruct (collides c t) eqn:E.
  - rewrite collides_dead by reflexivity. reflexivity.
  - rewrite E. reflexivity.
Qed.

(** ** Key presses *)

Lemma never_own_opposite (d : Direction) :
  pair_eqb (fst (Dir.value d), snd (Dir.value d))
           (- fst (Dir.value d), - snd (Dir.value d)) = false.
Proof. destruct d; reflexivity. Qed.

Lemma change_direction_twice (c : LightCycle.t) (d : Direction) :
  LightCycle.change_direction (LightCycle.change_direction c d) d =
  LightCycle.change_direction c d.
Proof.
  destruct (LightCycle.alive c) eqn:A.
  - rewrite (change_direction_alive c d A).
    destruct (negb _) eqn:E.
    + rewrite change_direction_alive by exact A.
      cbn [LightCycle.direction LightCycle.set_direction].
      rewrite never_own_opposite. reflexivity.
    + rewrite (change_direction_alive c d A), E. reflexivity.
  - now rewrite !(change_direction_dead c d A).
Qed.

Lemma turned_twice (c : LightCycle.t) (key : Key) :
  turned (turned c key) key = turned c key.
Proof.
  destruct (turned_keeps c key) as (_ & K & _ & _ & A & _).
  unfold turned at 1. rewrite K, A. unfold turned.
  destruct (lookup key (LightCycle.key_controls c)) as [d |]; [| reflexivity].
  destruct (LightCycle.alive c); [| reflexivity].
  apply change_direction_twice.
Qed.

Lemma Key_eqb_space (key : Key) : Key_eqb key K_SPACE = true -> key = K_SPACE.
Proof. destruct key; cbn; intros H; try discriminate H; reflexivity. Qed.

(** X7: pressing a key twice in a row is the same as pressing it once, in
    every game state and for every key. *)
Theorem key_press_twice (g : Game.t) (key : Key) :
  Game.handle_keydown (Game.handle_keydown g key) key = Game.handle_keydown g key.
Proof.
  rewrite (handle_keydown_eq g key).
  destruct (Key_eqb key K_SPACE && Game.game_over g) eqn:R.
  - apply andb_true_iff in R as [K _]. apply Key_eqb_space in K as ->.
    reflexivity.
  - rewrite handle_keydown_eq.
    cbn [Game.game_over Game.cycle1 Game.cycle2 Game.player1_controls
         Game.player2_controls Game.winner].
    rewrite R, !turned_twice. reflexivity.
Qed.

(** X8: in a game the driver can bring about, a key press that is not a
    restart turns cycles and does nothing else: positions, trails, alive
    flags, finished flag and winner stay.  A key outside the first player's
    controls leaves the first cycle as it is, a key outside the second
    player's controls the second; and no key is in both. *)
Theorem key_press_only_turns (inputs : list Game.Input) (key : Key) :
  let g := Game.run Game.init inputs in
  let g' := Game.handle_keydown g key in
  Key_eqb key K_SPACE && Game.game_over g = false ->
  LightCycle.set_direction (Game.cycle1 g')
                           (LightCycle.direction (Game.cycle1 g)) = Game.cycle1 g
  /\ LightCycle.set_direction (Game.cycle2 g')
                              (LightCycle.direction (Game.cycle2 g)) = Game.cycle2 g
  /\ Game.game_over g' = Game.game_over g
  /\ Game.winner g' = Game.winner g
  /\ (lookup key Game.p1_controls = None -> Game.cycle1 g' = Game.cycle1 g)
  /\ (lookup key Game.p2_controls = None -> Game.cycle2 g' = Game.cycle2 g)
  /\ (lookup key Game.p1_controls = None \/ lookup key Game.p2_controls = None).
Proof.
  intros g g' R; subst g'. rewrite handle_keydown_eq, R.
  cbn [Game.game_over Game.cycle1 Game.cycle2 Game.winner].
  pose proof (inv_run inputs) as I. fold g in I.
  repeat match goal with |- _ /\ _ => split end; try reflexivity.
  - rewrite turned_frame. unfold LightCycle.set_direction; cbn. apply eta.
  - rewrite turned_frame. unfold LightCycle.set_direction; cbn. apply eta.
  - intros L. unfold turned. now rewrite (inv_controls1 g I), L.
  - intros L. unfold turned. now rewrite (inv_controls2 g I), L.
  - destruct key; cbn; auto.
Qed.

(** The first player presses [w] at the start: the first cycle heads UP
    where it stood, the second is untouched. *)
Lemma key_press_only_turns_witness :
  let g' := Game.handle_keydown (Game.run Game.init []) K_w in
  LightCycle.set_direction (Game.cycle1 g') RIGHT = Game.cycle1 Game.init
  /\ Game.cycle2 g' = Game.cycle2 Game.init.
Proof.
  intros g'.
  destruct (key_press_only_turns [] K_w eq_refl) as (H1 & _ & _ & _ & _ & H2 & _).
  exact (conj H1 (H2 eq_refl)).
Defined.

(** ** Reversing through two turns *)

Lemma reverse_opposite (d : Direction) : Dir.opposite (reverse d) d.
Proof. destruct d; reflexivity. Qed.

Lemma side_step_across (d : Direction) :
  ~ Dir.opposite (side_step d) d /\ ~ Dir.opposite (reverse d) (side_step d).
Proof. split; destruct d; intros E; discriminate E. Qed.

Lemma two_turns_reverse (c : LightCycle.t) :
  LightCycle.alive c = true ->
  let h := LightCycle.direction c in
  LightCycle.change_direction (LightCycle.change_direction c (side_step h))
                              (reverse h)
  = LightCycle.set_direction c (reverse h).
Proof.
  intros A h. destruct (side_step_across h) as [N1 N2].
  assert (E1 : LightCycle.change_direction c (side_step h) =
               LightCycle.set_direction c (side_step h)).
  { rewrite change_direction_frame. f_equal.
    now apply change_direction_accepts. }
  rewrite E1, change_direction_frame. 
  rewrite change_direction_accepts by (try exact A; exact N2).
  reflexivity.
Qed.

Lemma p1_key_bound (d : Direction) :
  lookup (p1_key d) Game.p1_controls = Some d
  /\ lookup (p1_key d) Game.p2_controls = None
  /\ Key_eqb (p1_key d) K_SPACE = false.
Proof. destruct d; repeat split. Qed.

Lemma p2_key_bound (d : Direction) :
  lookup (p2_key d) Game.p2_controls = Some d
  /\ lookup (p2_key d) Game.p1_controls = None
  /\ Key_eqb (p2_key d) K_SPACE = false.
Proof. destruct d; repeat split. Qed.

Lemma turned_bound (c : LightCycle.t) (key : Key) (d : Direction) :
  lookup key (LightCycle.key_controls c) = Some d ->
  LightCycle.alive c = true ->
  turned c key = LightCycle.change_direction c d.
Proof. intros L A. unfold turned. now rewrite L, A. Qed.

Lemma turned_unbound (c : LightCycle.t) (key : Key) :
  lookup key (LightCycle.key_controls c) = None -> turned c key = c.
Proof. intros L. unfold turned. now rewrite L. Qed.

Lemma update_positions (g : Game.t) :
  Game.game_over g = false ->
  position (Game.cycle1 (Game.update g)) =
    position (LightCycle.move (Game.cycle1 g))
  /\ position (Game.cycle2 (Game.update g)) =
       position (LightCycle.move (Game.cycle2 g)).
Proof.
  intros H. rewrite (update_running g H).
  destruct (collides _ _); [| destruct (collides _ _)]; cbn; auto.
Qed.

(** X9: the no-reversal rule holds for one key press only.  In every
    running game the driver can bring about, either player reverses their
    cycle by two key presses before the next frame, first across and then
    back: the cycle then heads opposite to where it headed, nothing else
    about either cycle has changed, and the next frame moves it one step
    backwards. *)
Theorem two_key_presses_reverse (inputs : list Game.Input) :
  let g := Game.run Game.init inputs in
  Game.game_over g = false ->
  (let h := LightCycle.direction (Game.cycle1 g) in
   let g' := Game.handle_keydown
               (Game.handle_keydown g (p1_key (side_step h)))
               (p1_key (reverse h)) in
   Dir.opposite (LightCycle.direction (Game.cycle1 g')) h
   /\ Game.cycle1 g' = LightCycle.set_direction (Game.cycle1 g) (reverse h)
   /\ Game.cycle2 g' = Game.cycle2 g
   /\ Game.game_over g' = false
   /\ LightCycle.x (Game.cycle1 (Game.update g')) =
      LightCycle.x (Game.cycle1 g) - fst (Dir.value h) * 5
   /\ LightCycle.y (Game.cycle1 (Game.update g')) =
      LightCycle.y (Game.cycle1 g) - snd (Dir.value h) * 5)
  /\ (let h := LightCycle.direction (Game.cycle2 g) in
      let g' := Game.handle_keydown
                  (Game.handle_keydown g (p2_key (side_step h)))
                  (p2_key (reverse h)) in
      Dir.opposite (LightCycle.direction (Game.cycle2 g')) h
      /\ Game.cycle2 g' = LightCycle.set_direction (Game.cycle2 g) (reverse h)
      /\ Game.cycle1 g' = Game.cycle1 g
      /\ Game.game_over g' = false
      /\ LightCycle.x (Game.cycle2 (Game.update g')) =
         LightCycle.x (Game.cycle2 g) - fst (Dir.value h) * 5
      /\ LightCycle.y (Game.cycle2 (Game.update g')) =
         LightCycle.y (Game.cycle2 g) - snd (Dir.value h) * 5).
Proof.
  intros g H. pose proof (inv_run inputs) as I. fold g in I.
  destruct (outcome_running_alive g (inv_outcome g I) H) as [A1 A2].
  pose proof (inv_controls1 g I) as C1. pose proof (inv_controls2 g I) as C2.
  pose proof (inv_speed1 g I) as S1. pose proof (inv_speed2 g I) as S2.
  split.
  - intros h g'.
    destruct (p1_key_bound (side_step h)) as (Ka & Kb & Kc).
    destruct (p1_key_bound (reverse h)) as (Ka' & Kb' & Kc').
    assert (E : g' = Game.mk (Game.player1_controls g) (Game.player2_controls g)
                       (LightCycle.set_direction (Game.cycle1 g) (reverse h))
                       (Game.cycle2 g) (Game.game_over g) (Game.winner g)).
    { subst g'. rewrite !handle_keydown_eq, Kc.
      cbn [andb Game.game_over Game.cycle1 Game.cycle2 Game.winner
           Game.player1_controls Game.player2_controls].
      rewrite Kc'. cbn [andb].
      rewrite (turned_bound (Game.cycle1 g) _ (side_step h)) by (rewrite ?C1; assumption).
      rewrite (turned_unbound (Game.cycle2 g)) by (rewrite C2; assumption).
      rewrite (turned_unbound (Game.cycle2 g)) by (rewrite C2; assumption).
      rewrite (turned_bound _ _ (reverse h)).
      - subst h. now rewrite (two_turns_reverse _ A1).
      - rewrite change_direction_frame; cbn. now rewrite C1.
      - rewrite change_direction_frame; cbn. exact A1. }
    clearbody g'. subst g'.
    cbn [Game.cycle1 Game.cycle2 Game.game_over LightCycle.direction
         LightCycle.set_direction].
    repeat match goal with |- _ /\ _ => split end;
      try reflexivity; try assumption.
    + apply reverse_opposite.
    + match goal with |- LightCycle.x (Game.cycle1 (Game.update ?G)) = _ =>
        destruct (update_positions G H) as [P _] end.
      apply (f_equal fst) in P. cbn [position fst Game.cycle1] in P.
      rewrite P, move_alive by exact A1. cbn. rewrite S1.
      subst h. destruct (LightCycle.direction (Game.cycle1 g)); cbn; lia.
    + match goal with |- LightCycle.y (Game.cycle1 (Game.update ?G)) = _ =>
        destruct (update_positions G H) as [P _] end.
      apply (f_equal snd) in P. cbn [position snd Game.cycle1] in P.
      rewrite P, move_alive by exact A1. cbn. rewrite S1.
      subst h. destruct (LightCycle.direction (Game.cycle1 g)); cbn; lia.
  - intros h g'.
    destruct (p2_key_bound (side_step h)) as (Ka & Kb & Kc).
    destruct (p2_key_bound (reverse h)) as (Ka' & Kb' & Kc').
    assert (E : g' = Game.mk (Game.player1_controls g) (Game.player2_controls g)
                       (Game.cycle1 g)
                       (LightCycle.set_direction (Game.cycle2 g) (reverse h))
                       (Game.game_over g) (Game.winner g)).
    { subst g'. rewrite !handle_keydown_eq, Kc.
      cbn [andb Game.game_over Game.cycle1 Game.cycle2 Game.winner
           Game.player1_controls Game.player2_controls].
      rewrite Kc'. cbn [andb].
      rewrite (turned_bound (Game.cycle2 g) _ (side_step h)) by (rewrite ?C2; assumption).
      rewrite (turned_unbound (Game.cycle1 g)) by (rewrite C1; assumption).
      rewrite (turned_unbound (Game.cycle1 g)) by (rewrite C1; assumption).
      rewrite (turned_bound _ _ (reverse h)).
      - subst h. now rewrite (two_turns_reverse _ A2).
      - rewrite change_direction_frame; cbn. now rewrite C2.
      - rewrite change_direction_frame; cbn. exact A2. }
    clearbody g'. subst g'.
    cbn [Game.cycle1 Game.cycle2 Game.game_over LightCycle.direction
         LightCycle.set_direction].
    repeat match goal with |- _ /\ _ => split end;
      try reflexivity; try assumption.
    + apply reverse_opposite.
    + match goal with |- LightCycle.x (Game.cycle2 (Game.update ?G)) = _ =>
        destruct (update_positions G H) as [_ P] end.
      apply (f_equal fst) in P. cbn [position fst Game.cycle2] in P.
      rewrite P, move_alive by exact A2. cbn. rewrite S2.
      subst h. destruct (LightCycle.direction (Game.cycle2 g)); cbn; lia.
    + match goal with |- LightCycle.y (Game.cycle2 (Game.update ?G)) = _ =>
        destruct (update_positions G H) as [_ P] end.
      apply (f_equal snd) in P. cbn [position snd Game.cycle2] in P.
      rewrite P, move_alive by exact A2. cbn. rewrite S2.
      subst h. destruct (LightCycle.direction (Game.cycle2 g)); cbn; lia.
Qed.

(** The first player reverses one frame into the game. *)
Lemma two_key_presses_reverse_witness :
  let g := Game.run Game.init [Game.Tick] in
  let g' := Game.handle_keydown (Game.handle_keydown g K_w) K_a in
  LightCycle.direction (Game.cycle1 g) = RIGHT
  /\ Game.cycle1 g' = LightCycle.set_direction (Game.cycle1 g) LEFT
  /\ LightCycle.x (Game.cycle1 (Game.update g')) = 200.
Proof.
  intros g g'.
  destruct (two_key_presses_reverse [Game.Tick] eq_refl) as [(_ & E & _ & _ & X & _) _].
  exact (conj eq_refl (conj E X)).
Defined.

(** ** Drawing *)

Lemma draw_lines_seq (c : LightCycle.t) (k n : nat) :
  (n = 0 \/ k + n < List.length (LightCycle.trail c))%nat ->
  LightCycle.draw_lines c (seq k n) =
  Some (map (fun i => DrawLine (LightCycle.color c)
                               (nth i (LightCycle.trail c) (0, 0))
                               (nth (S i) (LightCycle.trail c) (0, 0)) 3)
            (seq k n)).
Proof.
  revert k. induction n as [| n IH]; intros k H; [reflexivity |].
  destruct H as [H | H]; [discriminate H |].
  cbn [seq LightCycle.draw_lines map].
  rewrite (nth_error_nth' (LightCycle.trail c) (0, 0)) by lia.
  rewrite (nth_error_nth' (LightCycle.trail c) (0, 0)) by lia.
  rewrite IH by lia. reflexivity.
Qed.

Lemma neighbours_by_index {A : Type} (l : list A) (d : A) :
  map (fun i => (nth i l d, nth (S i) l d)) (seq 0 (List.length l - 1)) =
  combine l (tl l).
Proof.
  induction l as [| a l IH]; [reflexivity |].
  destruct l as [| b l]; [reflexivity |].
  replace (List.length (a :: b :: l) - 1)%nat
    with (S (List.length (b :: l) - 1)) by (cbn [List.length]; lia).
  cbn [seq map]. rewrite <- seq_shift, map_map.
  cbn [combine tl]. f_equal. exact IH.
Qed.

Lemma draw_lines_segments (c : LightCycle.t) :
  LightCycle.draw_lines c (seq 0 (List.length (LightCycle.trail c) - 1)) =
  Some (segments c).
Proof.
  rewrite draw_lines_seq by lia. f_equal. unfold segments.
  rewrite <- (neighbours_by_index (LightCycle.trail c) (0, 0)), map_map.
  reflexivity.
Qed.

Lemma draw_cycle_eq (c : LightCycle.t) :
  LightCycle.draw c = Some (if LightCycle.alive c then cycle_picture c else []).
Proof.
  unfold LightCycle.draw. destruct (LightCycle.alive c); [| reflexivity].
  cbn [negb]. now rewrite draw_lines_segments.
Qed.

(** X10: [LightCycle.draw] never runs into an index outside the trail,
    whatever the cycle.  A dead cycle draws nothing, its trail included; an
    alive one draws one line of width 3 from each trail entry to the next,
    in order, and then a disc of radius 5 where it stands: one request per
    trail entry when the trail is not empty. *)
Theorem cycle_draw_picture (c : LightCycle.t) :
  LightCycle.draw c =
    Some (if LightCycle.alive c then cycle_picture c else [])
  /\ List.length (segments c) = (List.length (LightCycle.trail c) - 1)%nat
  /\ (forall (i : nat) (p q : Point),
         nth_error (LightCycle.trail c) i = Some p ->
         nth_error (LightCycle.trail c) (S i) = Some q ->
         nth_error (segments c) i = Some (DrawLine (LightCycle.color c) p q 3)).
Proof.
  split; [| split].
  - apply draw_cycle_eq.
  - unfold segments. rewrite length_map, length_combine.
    destruct (LightCycle.trail c) as [| a l]; [reflexivity |].
    cbn [tl List.length]. lia.
  - intros i p q Hp Hq. unfold segments.
    rewrite nth_error_map.
    assert (E : nth_error (combine (LightCycle.trail c) (tl (LightCycle.trail c))) i
                = Some (p, q)).
    { revert i Hp Hq. generalize (LightCycle.trail c) as l.
      induction l as [| a l IH]; intros i Hp Hq; [destruct i; discriminate |].
      destruct l as [| b l]; [destruct i; discriminate Hq |].
      destruct i as [| i]; cbn in *; [congruence |].
      apply IH; assumption. }
    now rewrite E.
Qed.

Lemma draw_game_eq (g : Game.t) :
  Game.draw g =
  Some ([Fill (0, 0, 0)]
        ++ (if LightCycle.alive (Game.cycle1 g)
            then cycle_picture (Game.cycle1 g) else [])
        ++ (if LightCycle.alive (Game.cycle2 g)
            then cycle_picture (Game.cycle2 g) else [])
        ++ (if Game.game_over g
            then banner (Game.winner_str (Game.winner g)) else [])
        ++ [Flip]).
Proof. unfold Game.draw. now rewrite !draw_cycle_eq. Qed.

(** X11: the screen of a game the driver can bring about.  A frame is a
    fill with black, the pictures, and a flip.  While the game runs both
    cycles are drawn and no text.  Once it is over only the surviving cycle
    is drawn, the loser's trail is gone from the screen, and the text reads
    "Game Over! Player 1 Wins!" or "Game Over! Player 2 Wins!", naming the
    survivor, followed by "Click to Restart". *)
Theorem screen_of_reachable_game (inputs : list Game.Input) :
  let g := Game.run Game.init inputs in
  (Game.game_over g = false ->
   Game.draw g =
   Some (Fill (0, 0, 0) :: cycle_picture (Game.cycle1 g)
         ++ cycle_picture (Game.cycle2 g) ++ [Flip]))
  /\ (Game.game_over g = true ->
      (LightCycle.alive (Game.cycle1 g) = true
       /\ Game.draw g =
          Some (Fill (0, 0, 0) :: cycle_picture (Game.cycle1 g)
                ++ [Blit "Game Over! Player 1 Wins!" (255, 255, 255) (300, 300);
                    Blit "Click to Restart" (255, 255, 255) (300, 400);
                    Flip]))
      \/ (LightCycle.alive (Game.cycle2 g) = true
          /\ Game.draw g =
             Some (Fill (0, 0, 0) :: cycle_picture (Game.cycle2 g)
                   ++ [Blit "Game Over! Player 2 Wins!" (255, 255, 255) (300, 300);
                       Blit "Click to Restart" (255, 255, 255) (300, 400);
                       Flip]))).
Proof.
  intros g. pose proof (inv_run inputs) as I. fold g in I.
  rewrite draw_game_eq.
  destruct (inv_outcome g I) as [H W A1 A2 | H W A1 A2 | H W A1 A2];
    rewrite ?H, ?W, ?A1, ?A2; (split; [intros E | intros E]);
    try discriminate E.
  - cbn. reflexivity.
  - right. split; [reflexivity |]. cbn. reflexivity.
  - left. split; [reflexivity |]. cbn. reflexivity.
Qed.

(** ** The main loop *)

Lemma run_app (g : Game.t) (a b : list Game.Input) :
  Game.run g (a ++ b) = Game.run (Game.run g a) b.
Proof. unfold Game.run. apply fold_left_app. Qed.

Lemma keyboard_without_quit (g : Game.t) (events : list Event) :
  ~ In QUIT events ->
  Game.handle_keyboard_input g events = Some (Game.run g (key_presses events)).
Proof.
  revert g. induction events as [| e events IH]; intros g N; [reflexivity |].
  destruct e as [| key |]; cbn.
  - exfalso. apply N. now left.
  - apply IH. intros H. apply N. now right.
  - apply IH. intros H. apply N. now right.
Qed.

Lemma keyboard_with_quit (g : Game.t) (events : list Event) :
  In QUIT events -> Game.handle_keyboard_input g events = None.
Proof.
  revert g. induction events as [| e events IH]; intros g H; [destruct H |].
  destruct e as [| key |]; cbn; [reflexivity | |];
    (destruct H as [H | H]; [discriminate H | now apply IH]).
Qed.

Lemma mouse_as_input (g : Game.t) (pressed : bool) (pos : Z * Z) :
  Game.handle_mouse_input g pressed pos =
  Game.run g (if pressed then [Game.Click pos] else []).
Proof. destruct pressed; reflexivity. Qed.

Lemma frame_without_quit (g : Game.t) (f : Game.FrameInput) :
  ~ In QUIT (Game.events f) ->
  exists cmds,
    Game.frame g f = Game.Ok (Game.run g (frame_inputs f), cmds)
    /\ Game.draw (Game.run g (frame_inputs f)) = Some cmds.
Proof.
  intros N. unfold Game.frame, frame_inputs.
  rewrite (keyboard_without_quit g _ N), mouse_as_input, !run_app.
  cbn [Game.run fold_left Game.step].
  rewrite draw_game_eq. eexists. split; reflexivity.
Qed.

Lemma frame_with_quit (g : Game.t) (f : Game.FrameInput) :
  In QUIT (Game.events f) -> Game.frame g f = Game.SysExit.
Proof. intros H. unfold Game.frame. now rewrite (keyboard_with_quit g _ H). Qed.

Lemma main_loop_without_quit (g : Game.t) (frames : list Game.FrameInput) :
  no_quit frames ->
  exists screens,
    Game.main_loop g frames =
      Game.Ok (Game.run g (flat_map frame_inputs frames), screens)
    /\ List.length screens = List.length frames.
Proof.
  revert g. induction frames as [| f frames IH]; intros g N.
  - exists []. split; reflexivity.
  - apply Forall_cons_iff in N as [Nf N].
    destruct (frame_without_quit g f Nf) as (cmds & F & _).
    destruct (IH (Game.run g (frame_inputs f)) N) as (screens & M & L).
    exists (cmds :: screens). cbn [Game.main_loop flat_map].
    rewrite F, M, run_app. split; [reflexivity | cbn; now rewrite L].
Qed.

Lemma main_loop_no_error (g : Game.t) (frames : list Game.FrameInput) :
  Game.main_loop g frames <> Game.IndexError.
Proof.
  revert g. induction frames as [| f frames IH]; intros g; [discriminate |].
  cbn [Game.main_loop]. unfold Game.frame.
  destruct (Game.handle_keyboard_input g (Game.events f)) as [g1 |];
    [| discriminate].
  rewrite draw_game_eq.
  specialize (IH (Game.update (Game.handle_mouse_input g1 (Game.left_pressed f)
                                                      (Game.mouse_pos f)))).
  destruct (Game.main_loop _ frames) as [[final screens] | |];
    [discriminate | discriminate | contradiction].
Qed.

(** X12: the loop of [run], started by [main], is the game driven input by
    input.  As long as no QUIT arrives, each pass amounts to the key presses
    of its events in order, then the click if the left button is down, then
    one [update]; it draws one screen per pass.  A pass whose events hold a
    QUIT ends the program through [sys.exit()] whatever follows.  The loop
    never ends with an IndexError. *)
Theorem main_loop_drives_the_game :
  (forall frames : list Game.FrameInput,
      no_quit frames ->
      exists screens,
        main frames =
          Game.Ok (Game.run Game.init (flat_map frame_inputs frames), screens)
        /\ List.length screens = List.length frames)
  /\ (forall (frames rest : list Game.FrameInput) (f : Game.FrameInput),
         no_quit frames -> In QUIT (Game.events f) ->
         main (frames ++ f :: rest) = Game.SysExit)
  /\ (forall frames : list Game.FrameInput, main frames <> Game.IndexError).
Proof.
  split; [| split].
  - intros frames N. apply main_loop_without_quit, N.
  - intros frames rest f N Q. unfold main. generalize Game.init as g.
    induction frames as [| f0 frames IH]; intros g.
    + cbn. now rewrite (frame_with_quit g f Q).
    + apply Forall_cons_iff in N as [N0 N].
      destruct (frame_without_quit g f0 N0) as (cmds & F & _).
      cbn [app Game.main_loop]. rewrite F, (IH N). reflexivity.
  - intros frames. apply main_loop_no_error.
Qed.









(** ** Trails only grow *)

(** X14: a trail is append-only.  In every game state, an input that is not
    a restart leaves each trail as it was or appends one point to it; it
    appends exactly when the input is a frame, the game is running and the
    cycle is alive. *)
Theorem trail_is_append_only (g : Game.t) (i : Game.Input) :
  Game.restart_request i && Game.game_over g = false ->
  (exists ext,
      LightCycle.trail (Game.cycle1 (Game.step g i)) =
        LightCycle.trail (Game.cycle1 g) ++ ext
      /\ (List.length ext <= 1)%nat
      /\ (List.length ext = 1%nat <->
          i = Game.Tick /\ Game.game_over g = false
          /\ LightCycle.alive (Game.cycle1 g) = true))
  /\ (exists ext,
         LightCycle.trail (Game.cycle2 (Game.step g i)) =
           LightCycle.trail (Game.cycle2 g) ++ ext
         /\ (List.length ext <= 1)%nat
         /\ (List.length ext = 1%nat <->
             i = Game.Tick /\ Game.game_over g = false
             /\ LightCycle.alive (Game.cycle2 g) = true)).
Proof.
  intros R. rewrite step_eq, R.
  assert (Same : forall (c c' : LightCycle.t) (P : Prop),
             LightCycle.trail c' = LightCycle.trail c -> ~ P ->
             exists ext, LightCycle.trail c' = LightCycle.trail c ++ ext
                         /\ (List.length ext <= 1)%nat
                         /\ (List.length ext = 1%nat <-> P)).
  { intros c c' P E NP. exists []. rewrite app_nil_r. cbn.
    split; [exact E | split; [lia | split; [discriminate | tauto]]]. }
  assert (Moved : forall c : LightCycle.t,
             exists ext,
               LightCycle.trail (LightCycle.move c) = LightCycle.trail c ++ ext
               /\ (List.length ext <= 1)%nat
               /\ (List.length ext = 1%nat <->
                   Game.Tick = Game.Tick /\ false = false
                   /\ LightCycle.alive c = true)).
  { intros c. destruct (LightCycle.alive c) eqn:A.
    - rewrite (move_alive c A); cbn. eexists. split; [reflexivity |].
      cbn. split; [lia | tauto].
    - rewrite (move_dead c A). exists []. rewrite app_nil_r. cbn.
      split; [reflexivity | split; [lia |]].
      split; [discriminate | intros (_ & _ & E); discriminate E]. }
  destruct i as [| key | pos].
  - destruct (Game.game_over g) eqn:H.
    + rewrite (update_finished g H).
      split; apply Same; try reflexivity; intros (_ & E & _); discriminate E.
    + destruct (update_trails g H) as [-> ->]. split; apply Moved.
  - cbn [Game.cycle1 Game.cycle2].
    split; apply Same; try apply turned_keeps;
      intros (E & _); discriminate E.
  - split; apply Same; try reflexivity; intros (E & _); discriminate E.
Qed.

(** The first frame of a game appends one point to the first trail. *)
Lemma trail_is_append_only_witness :
  exists ext,
    LightCycle.trail (Game.cycle1 (Game.step Game.init Game.Tick)) =
      LightCycle.trail (Game.cycle1 Game.init) ++ ext
    /\ (List.length ext <= 1)%nat.
Proof.
  destruct (trail_is_append_only Game.init Game.Tick eq_refl)
    as [(ext & E & L & _) _].
  exists ext. exact (conj E L).
Defined.

(** ** What ends a round *)

Lemma out_of_bounds_not_in_field (c : LightCycle.t) :
  LightCycle.out_of_bounds c = true <-> ~ in_field (position c).
Proof.
  rewrite out_of_bounds_spec. unfold in_field, position; cbn [fst snd]. lia.
Qed.

Lemma slice_upto_incl {A : Type} (l : list A) (a : A) :
  In a (slice_upto l (-10)) -> In a l.
Proof.
  intros H. destruct (slice_upto_split l) as (recent & E & _).
  rewrite E. apply in_or_app. now left.
Qed.

(** On the grid a cycle reports a collision exactly when it has left the
    playfield or stands on a scanned point. *)
Lemma collides_exact (c : LightCycle.t) (other_trail : Trail) :
  LightCycle.alive c = true ->
  on_grid (position c) ->
  Forall on_grid other_trail -> Forall on_grid (LightCycle.trail c) ->
  collides c other_trail = true <->
  ~ in_field (position c)
  \/ In (position c) (other_trail ++ slice_upto (LightCycle.trail c) (-10)).
Proof.
  intros A Gp Go Gt. unfold collides. rewrite A. cbn [andb].
  rewrite orb_true_iff, out_of_bounds_not_in_field, scan_spec, Exists_exists.
  split; (intros [H | H]; [now left | right]).
  - destruct H as (p & Hp & T).
    assert (Gq : on_grid p).
    { apply in_app_or in Hp as [Hp | Hp].
      - exact (proj1 (Forall_forall _ _) Go p Hp).
      - exact (proj1 (Forall_forall _ _) Gt p (slice_upto_incl _ _ Hp)). }
    now rewrite (close_on_grid _ _ Gp Gq T).
  - exists (position c). split; [exact H | exact (close_refl (position c))].
Qed.

(** X15: what ends a round.  In a running game the driver can bring about,
    the next frame ends the game exactly when, after both cycles have
    moved, one of them is outside the playfield or stands exactly on a
    point of the other's trail (its new position included) or of its own
    trail more than ten entries back. *)
Theorem round_ends_on_exact_hit (inputs : list Game.Input) :
  let g := Game.run Game.init inputs in
  let c1 := LightCycle.move (Game.cycle1 g) in
  let c2 := LightCycle.move (Game.cycle2 g) in
  Game.game_over g = false ->
  Game.game_over (Game.update g) = true <->
  ~ in_field (LightCycle.x c1, LightCycle.y c1)
  \/ In (LightCycle.x c1, LightCycle.y c1)
        (LightCycle.trail c2 ++ slice_upto (LightCycle.trail c1) (-10))
  \/ ~ in_field (LightCycle.x c2, LightCycle.y c2)
  \/ In (LightCycle.x c2, LightCycle.y c2)
        (LightCycle.trail c1 ++ slice_upto (LightCycle.trail c2) (-10)).
Proof.
  intros g c1 c2 H.
  pose proof (inv_run inputs) as I. pose proof (geometry_run inputs) as G.
  fold g in I, G.
  destruct (outcome_running_alive g (inv_outcome g I) H) as [A1 A2].
  pose proof (geometry_move _ (inv_speed1 g I) (geo_cycle1 g G)) as G1.
  pose proof (geometry_move _ (inv_speed2 g I) (geo_cycle2 g G)) as G2.
  fold c1 in G1. fold c2 in G2.
  assert (A1' : LightCycle.alive c1 = true)
    by (subst c1; now rewrite move_keeps_alive).
  assert (A2' : LightCycle.alive c2 = true)
    by (subst c2; now rewrite move_keeps_alive).
  pose proof (collides_exact c1 (LightCycle.trail c2) A1'
                (position_on_grid c1 G1) (geo_grid c2 G2) (geo_grid c1 G1)) as X1.
  pose proof (collides_exact c2 (LightCycle.trail c1) A2'
                (position_on_grid c2 G2) (geo_grid c1 G1) (geo_grid c2 G2)) as X2.
  unfold position in X1, X2.
  rewrite (update_running g H). fold c1 c2.
  destruct (collides c1 (LightCycle.trail c2)) eqn:E1;
    [| destruct (collides c2 (LightCycle.trail c1)) eqn:E2]; cbn [Game.game_over].
  - split; [intros _ | reflexivity]. tauto.
  - split; [intros _ | reflexivity]. tauto.
  - split; [discriminate |]. intros F.
    assert (false = true) by tauto. assumption.
Qed.

(** At the start: the first frame does not end the game. *)
Lemma round_ends_on_exact_hit_witness :
  Game.game_over (Game.update Game.init) = true <->
  ~ in_field (205, 300)
  \/ In (205, 300) ([(600, 300); (595, 300)] ++ [])
  \/ ~ in_field (595, 300)
  \/ In (595, 300) ([(200, 300); (205, 300)] ++ []).
Proof. exact (round_ends_on_exact_hit [] eq_refl). Defined.
